(** * MasterTickets graphviz model: a verification development

    Shallow embedding of [mastertickets/graphviz.py]: attribute formatting,
    the [Node] / [Edge] / [Graph] object model with reference identity, the
    reachability traversal of [Graph.__str__], and the contract of
    [Graph.render] with the external [dot] process.

    Python objects with identity live in a heap; a reference is the index of
    the object in the heap, so two references are the same object exactly
    when they are the same number. *)

From Stdlib Require Import ZArith String Ascii DecimalString.
From stdpp Require Import gmap strings list.

Set Warnings "-register-all,-clear-no-such-hyp".
Local Open Scope string_scope.
Local Open Scope list_scope.

(** ** Text helpers *)

(** The double-quote character and the two control characters the emitted
    text uses. *)
Definition dq : string := String "034"%char EmptyString.
Definition tab : string := String "009"%char EmptyString.
Definition nl : string := String "010"%char EmptyString.

(** [sep.join(parts)] *)
Definition join (sep : string) (parts : list string) : string :=
  String.concat sep parts.

(** ** Attribute values *)

(** The Python values an attribute can hold in this model.  [VDict] is the
    built-in [dict] of Python 3 (it offers [items()] and has no [iteritems]
    attribute); [VItems] is a dictionary object that does expose
    [iteritems()] (a [dict] subclass written in the Python 2 style).  Keys of
    both are strings. *)
Inductive value : Type :=
| VStr (s : string)
| VInt (z : Z)
| VList (vs : list value)
| VTuple (vs : list value)
| VDict (kvs : list (string * value))
| VItems (kvs : list (string * value)).

(** An attribute dictionary in insertion order. *)
Abbreviation attrs := (list (string * value)).

(** *** [repr] of the modelled values *)

Definition hex_digit (n : N) : ascii :=
  if (n <? 10)%N then ascii_of_N (48 + n) else ascii_of_N (87 + n).

Definition string_mem (c : ascii) (s : string) : bool :=
  existsb (Ascii.eqb c) (list_ascii_of_string s).

(** The quote [repr] chooses for a [str]: double quotes only when the text
    holds a single quote and no double quote. *)
Definition repr_quote (s : string) : ascii :=
  if string_mem "'"%char s && negb (string_mem "034"%char s)
  then "034"%char else "'"%char.

(** One character of [repr(str)].  Characters are bytes of the UTF-8 text,
    and bytes from 128 up are kept: this is [repr] for texts whose code
    points above 127 are all printable.  A code point above 127 that is not
    printable (U+00A0 for one), which [repr] writes as an escape, is outside
    the model. *)
Definition repr_char (q c : ascii) : string :=
  let n := N_of_ascii c in
  if Ascii.eqb c q || Ascii.eqb c "\"%char then String "\"%char (String c EmptyString)
  else if (n =? 9)%N then "\t"
  else if (n =? 10)%N then "\n"
  else if (n =? 13)%N then "\r"
  else if (n <? 32)%N || (n =? 127)%N
       then "\x" +:+ String (hex_digit (n / 16)) (String (hex_digit (n mod 16)) EmptyString)
  else String c EmptyString.

Definition repr_str (s : string) : string :=
  let q := repr_quote s in
  String q (String.concat EmptyString (map (repr_char q) (list_ascii_of_string s)))
    +:+ String q EmptyString.

Definition repr_int (z : Z) : string := NilZero.string_of_int (Z.to_int z).

Fixpoint py_repr (v : value) : string :=
  match v with
  | VStr s => repr_str s
  | VInt z => repr_int z
  | VList vs => "[" +:+ join ", " (map py_repr vs) +:+ "]"
  | VTuple vs =>
      match vs with
      | [x] => "(" +:+ py_repr x +:+ ",)"
      | _ => "(" +:+ join ", " (map py_repr vs) +:+ ")"
      end
  | VDict kvs | VItems kvs =>
      "{" +:+ join ", " (map (fun kv => repr_str (fst kv) +:+ ": " +:+ py_repr (snd kv)) kvs) +:+ "}"
  end.

(** *** Python [==] on the modelled values *)

Fixpoint assoc {A : Type} (k : string) (l : list (string * A)) : option A :=
  match l with
  | [] => None
  | (k', v) :: l' => if String.eqb k k' then Some v else assoc k l'
  end.

(** [dict.__eq__]: same number of entries, and every key of the left one is
    in the right one with an equal value; the order of insertion does not
    count. *)
Fixpoint py_eq (a b : value) {struct a} : bool :=
  let dict_eq (xs ys : list (string * value)) : bool :=
    Nat.eqb (length xs) (length ys)
    && forallb (fun kv => match assoc (fst kv) ys with
                          | Some w => py_eq (snd kv) w
                          | None => false
                          end) xs in
  match a, b with
  | VStr s, VStr t => String.eqb s t
  | VInt x, VInt y => Z.eqb x y
  | VList xs, VList ys | VTuple xs, VTuple ys =>
      (fix all2 (xs ys : list value) {struct xs} : bool :=
         match xs, ys with
         | [], [] => true
         | x :: xs', y :: ys' => py_eq x y && all2 xs' ys'
         | _, _ => false
         end) xs ys
  | VDict xs, VDict ys | VDict xs, VItems ys
  | VItems xs, VDict ys | VItems xs, VItems ys => dict_eq xs ys
  | _, _ => false
  end.

Definition dict_eq (xs ys : attrs) : bool :=
  Nat.eqb (length xs) (length ys)
  && forallb (fun kv => match assoc (fst kv) ys with
                        | Some w => py_eq (snd kv) w
                        | None => false
                        end) xs.

(** ** [_handle_attribute_value] *)

Fixpoint _handle_attribute_value (v : value) : string :=
  match v with
  | VStr s => s
  | VItems kvs =>
      join ", " (map (fun kv => fst kv +:+ "=" +:+ _handle_attribute_value (snd kv)) kvs)
  | VList vs | VTuple vs => join ", " (map _handle_attribute_value vs)
  | _ => py_repr v
  end.

(** [_format_options(base_string, options)] with the option values already
    turned into text. *)
Definition _format_options (base_string : string) (options : list (string * string)) : string :=
  let formatted_options :=
    join ", " (map (fun kv => fst kv +:+ "=" +:+ dq +:+ snd kv +:+ dq) options) in
  base_string +:+ " [" +:+ formatted_options +:+ "]".

(** [str(value)]: the text itself for a [str], and [repr] for the other
    modelled values (none of them overrides [__str__]). *)
Definition py_str (v : value) : string :=
  match v with
  | VStr s => s
  | _ => py_repr v
  end.

(** ** Objects with identity *)

(** A reference to an object: a [Node], an [Edge], or an object of any
    other class.  The number is the object's identity. *)
Inductive ref : Type :=
| RNode (n : nat)
| REdge (e : nat)
| ROther (i : nat).

#[global] Instance ref_eq_dec : EqDecision ref.
Proof. solve_decision. Defined.

#[global] Instance ref_countable : Countable ref.
Proof.
  refine (inj_countable'
    (fun r => match r with
              | RNode n => inl n
              | REdge e => inr (inl e)
              | ROther i => inr (inr i)
              end)
    (fun x => match x with
              | inl n => RNode n
              | inr (inl e) => REdge e
              | inr (inr i) => ROther i
              end) _).
  by intros [].
Defined.

(** [class Node(dict)]: the attributes are the dictionary part of the
    object, [name] and [edges] are instance fields.  [edges] holds
    references to [Edge] objects. *)
Module Node.
Record t := mk { name : string; edges : list nat; items : attrs }.
End Node.

(** [class Edge(dict)]: [source] and [dest] are references to [Node]
    objects, so the tests [isinstance(item.source, Node)] and
    [isinstance(item.dest, Node)] of the traversal always succeed. *)
Module Edge.
Record t := mk { source : nat; dest : nat; items : attrs }.
End Edge.

(** The store of live objects.  The reference [RNode n] denotes
    [heap_nodes !! n], and [REdge e] denotes [heap_edges !! e]; allocation
    appends, so an object never changes its number. *)
Record heap := Heap { heap_nodes : list Node.t; heap_edges : list Edge.t }.

Definition empty_heap : heap := Heap [] [].

Inductive exn : Type :=
| KeyError (key : string)
| ValueError
| AttributeError.

(** [d[k] = v] on a dictionary kept in insertion order. *)
Fixpoint dict_set {A : Type} (k : string) (v : A) (d : list (string * A)) : list (string * A) :=
  match d with
  | [] => [(k, v)]
  | (k', v') :: d' => if String.eqb k k' then (k, v) :: d' else (k', v') :: dict_set k v d'
  end.

(** [Node(name, **kwargs)] *)
Definition Node__init__ (h : heap) (name : string) (kwargs : attrs) : heap * nat :=
  (Heap (heap_nodes h ++ [Node.mk name [] kwargs]) (heap_edges h), length (heap_nodes h)).

(** [Edge(source, dest, **kwargs)] *)
Definition Edge__init__ (h : heap) (source dest : nat) (kwargs : attrs) : heap * nat :=
  (Heap (heap_nodes h) (heap_edges h ++ [Edge.mk source dest kwargs]), length (heap_edges h)).

(** [node.edges.append(edge)] *)
Definition edges_append (n e : nat) (h : heap) : heap :=
  Heap (alter (fun nd => Node.mk (Node.name nd) (Node.edges nd ++ [e]) (Node.items nd))
              n (heap_nodes h))
       (heap_edges h).

(** [Node.__gt__(self, other)]: [self > other] adds an edge from [self] to
    [other]. *)
Definition Node__gt__ (h : heap) (self other : nat) : heap * nat :=
  let '(h, edge) := Edge__init__ h self other [] in
  let h := edges_append self edge h in
  let h := edges_append other edge h in
  (h, edge).

(** [Node.__lt__(self, other)] *)
Definition Node__lt__ (h : heap) (self other : nat) : heap * nat :=
  let '(h, edge) := Edge__init__ h other self [] in
  let h := edges_append self edge h in
  let h := edges_append other edge h in
  (h, edge).

(** [node[key] = v] and [edge[key] = v] *)
Definition Node__setitem__ (h : heap) (n : nat) (key : string) (v : value) : heap :=
  Heap (alter (fun nd => Node.mk (Node.name nd) (Node.edges nd) (dict_set key v (Node.items nd)))
              n (heap_nodes h))
       (heap_edges h).

Definition Edge__setitem__ (h : heap) (e : nat) (key : string) (v : value) : heap :=
  Heap (heap_nodes h)
       (alter (fun ed => Edge.mk (Edge.source ed) (Edge.dest ed) (dict_set key v (Edge.items ed)))
              e (heap_edges h)).

(** The dictionary [{str(k): _handle_attribute_value(v) for k, v in self.items()}] *)
Definition options_of (items : attrs) : list (string * string) :=
  map (fun kv => (fst kv, _handle_attribute_value (snd kv))) items.

(** [Node.__str__] *)
Definition Node__str__ (nd : Node.t) : string :=
  let ret := Node.name nd in
  let options := options_of (Node.items nd) in
  match options with
  | [] => ret
  | _ => _format_options ret options
  end.

(** [Edge.__str__] *)
Definition Edge__str__ (h : heap) (ed : Edge.t) : option string :=
  s ← heap_nodes h !! Edge.source ed;
  d ← heap_nodes h !! Edge.dest ed;
  let ret := Node.name s +:+ " -> " +:+ Node.name d in
  let options := options_of (Edge.items ed) in
  Some match options with
       | [] => ret
       | _ => _format_options ret options
       end.

(** [Node.__eq__] is inherited from [dict]: two nodes are equal when their
    attribute dictionaries are, whatever their names and edges. *)
Definition Node__eq__ (h : heap) (a b : nat) : bool :=
  match heap_nodes h !! a, heap_nodes h !! b with
  | Some x, Some y => dict_eq (Node.items x) (Node.items y)
  | _, _ => false
  end.

(** The test [lst.remove(x)] applies to an entry [y] of a list of nodes:
    [y is x or y == x]. *)
Definition remove_hit (h : heap) (x y : nat) : bool := Nat.eqb y x || Node__eq__ h y x.

(** [lst.remove(x)]: drops the first entry that passes the test; [None]
    stands for the [ValueError] of a list without such an entry. *)
Fixpoint list_remove (h : heap) (x : nat) (lst : list nat) : option (list nat) :=
  match lst with
  | [] => None
  | y :: lst' =>
      if remove_hit h x y then Some lst'
      else cons y <$> list_remove h x lst'
  end.

(** ** The graph *)

(** What the logging collaborator is told by [log.warning]: the command
    line, the exit code and the diagnostic text the message is built from. *)
Record warning := Warning { w_cmd : string; w_rc : Z; w_error : string }.

(** What [p.communicate(...)] and [p.returncode] give back once the external
    process has ended. *)
Record completed := Completed { returncode : Z; out : string; error : string }.

Inductive outcome (A : Type) : Type :=
| Return (a : A)
| Raise (e : exn).
Arguments Return {A} a.
Arguments Raise {A} e.

(** The state of the closure [process] inside [Graph.__str__]: the set
    [memo] and the two result lists. *)
Record pstate := PState { memo : gset ref; p_nodes : list nat; p_edges : list nat }.

(** A [for] loop over a list whose body may fail to return. *)
Fixpoint for_each {A S : Type} (body : A → S → option S) (lst : list A) (s : S) : option S :=
  match lst with
  | [] => Some s
  | x :: lst' => s' ← body x s; for_each body lst' s'
  end.

Module Graph.

(** A logger is modelled by the warnings it has received so far; [None]
    is [log=None]. *)
Record t := mk {
  name : string;
  log : option (list warning);
  nodes : list nat;
  _node_map : gmap string nat;
  attributes : attrs;
  edges : list nat
}.

Definition __init__ (name : string) (log : option (list warning)) : t :=
  mk name log [] ∅ [] [].

(** [add(obj)].  The name of a node is read from the store; a reference
    always denotes a live object, so the branch without one is never taken. *)
Definition add (h : heap) (g : t) (obj : ref) : t :=
  match obj with
  | RNode n =>
      match heap_nodes h !! n with
      | Some nd =>
          mk (name g) (log g) (nodes g ++ [n]) (<[Node.name nd := n]> (_node_map g))
             (attributes g) (edges g)
      | None => g
      end
  | REdge e =>
      mk (name g) (log g) (nodes g) (_node_map g) (attributes g) (edges g ++ [e])
  | ROther _ => g
  end.

Definition __getitem__ (h : heap) (g : t) (key : string) : heap * t * nat :=
  match _node_map g !! key with
  | Some n => (h, g, n)
  | None =>
      let '(h, new_node) := Node__init__ h key [] in
      (h,
       mk (name g) (log g) (nodes g ++ [new_node]) (<[key := new_node]> (_node_map g))
          (attributes g) (edges g),
       new_node)
  end.

(** The graph after the statement, and the exception it raised if any. *)
Definition __delitem__ (h : heap) (g : t) (key : string) : t * option exn :=
  match _node_map g !! key with
  | None => (g, Some (KeyError key))
  | Some node =>
      let g := mk (name g) (log g) (nodes g) (delete key (_node_map g))
                  (attributes g) (edges g) in
      match list_remove h node (nodes g) with
      | Some l => (mk (name g) (log g) l (_node_map g) (attributes g) (edges g), None)
      | None => (g, Some ValueError)
      end
  end.

(** The body of the loop of [process] for one [item]; [process] is the
    recursive call. *)
Definition visit (h : heap) (process : list ref → pstate → option pstate)
    (item : ref) (s : pstate) : option pstate :=
  if decide (item ∈ memo s) then Some s
  else
    let s := PState ({[item]} ∪ memo s) (p_nodes s) (p_edges s) in
    match item with
    | RNode n =>
        let s := PState (memo s) (p_nodes s ++ [n]) (p_edges s) in
        nd ← heap_nodes h !! n;
        process (REdge <$> Node.edges nd) s
    | REdge e =>
        let s := PState (memo s) (p_nodes s) (p_edges s ++ [e]) in
        ed ← heap_edges h !! e;
        s ← process [RNode (Edge.source ed)] s;
        process [RNode (Edge.dest ed)] s
    | ROther _ => Some s
    end.

(** [process(lst)]; [fuel] bounds the depth of the recursion. *)
Fixpoint process (h : heap) (fuel : nat) (lst : list ref) (s : pstate) : option pstate :=
  match fuel with
  | 0 => None
  | S fuel => for_each (visit h (process h fuel)) lst s
  end.

(** The depth [process] can reach is bounded by the number of objects. *)
Definition depth (h : heap) : nat := S (length (heap_nodes h) + length (heap_edges h)).

(** [process(self.nodes); process(self.edges)] *)
Definition traverse (h : heap) (g : t) : option pstate :=
  s ← process h (depth h) (RNode <$> nodes g) (PState ∅ [] []);
  process h (depth h) (REdge <$> edges g) s.

Definition quoted_attrs (items : attrs) : string :=
  join ", " (map (fun kv => fst kv +:+ "=" +:+ dq +:+ _handle_attribute_value (snd kv) +:+ dq)
                 items).

Definition header (g : t) : string := "digraph " +:+ dq +:+ name g +:+ dq +:+ " {".

Definition attr_line (kv : string * value) : string :=
  tab +:+ fst kv +:+ "=" +:+ dq +:+ py_str (snd kv) +:+ dq +:+ ";".

Definition node_line (h : heap) (n : nat) : option string :=
  node ← heap_nodes h !! n;
  let node_attrs := quoted_attrs (Node.items node) in
  Some (tab +:+ dq +:+ Node.name node +:+ dq +:+ " [" +:+ node_attrs +:+ "];").

Definition edge_line (h : heap) (e : nat) : option string :=
  edge ← heap_edges h !! e;
  source ← heap_nodes h !! Edge.source edge;
  dest ← heap_nodes h !! Edge.dest edge;
  let edge_attrs :=
    quoted_attrs (List.filter (fun kv => negb (String.eqb (fst kv) "source"
                                               || String.eqb (fst kv) "dest"))
                              (Edge.items edge)) in
  Some (tab +:+ dq +:+ Node.name source +:+ dq +:+ " -> " +:+ dq +:+ Node.name dest +:+ dq
        +:+ " [" +:+ edge_attrs +:+ "];").

(** The list [lines] of [__str__] just before it is joined. *)
Definition lines (h : heap) (g : t) : option (list string) :=
  s ← traverse h g;
  node_lines ← mapM (node_line h) (p_nodes s);
  edge_lines ← mapM (edge_line h) (p_edges s);
  Some ([header g] ++ map attr_line (attributes g) ++ node_lines ++ edge_lines ++ ["}"]).

Definition __str__ (h : heap) (g : t) : option string :=
  join nl <$> lines h g.

(** [render(dot_path, format)].  [popen] stands for the external process:
    from the command line and the bytes written to its input it gives the
    exit code and the two captured streams.  The result is the graph with
    its logger after the call, and the value returned or the exception
    raised. *)
Definition render (popen : list string → string → completed) (h : heap) (g : t)
    (dot_path format : string) : option (t * outcome string) :=
  let cmd := [dot_path; "-T" +:+ format] in
  text ← __str__ h g;
  let p := popen cmd text in
  if (bool_decide (is_Some (log g)) && negb (String.eqb (error p) EmptyString))
     || negb (Z.eqb (returncode p) 0)
  then
    match log g with
    | Some received =>
        let w := Warning (join " " cmd) (returncode p) (error p) in
        Some (mk (name g) (Some (received ++ [w])) (nodes g) (_node_map g)
                 (attributes g) (edges g),
              Return (out p))
    | None => Some (g, Raise AttributeError)
    end
  else Some (g, Return (out p)).

End Graph.

Arguments Graph.depth : simpl never.

(** ** Well-formed stores and reachability *)

(** A reference is live when it denotes an object of the store. *)
Definition live (h : heap) (r : ref) : Prop :=
  match r with
  | RNode n => n < length (heap_nodes h)
  | REdge e => e < length (heap_edges h)
  | ROther _ => False
  end.

(** Every field of every object holds live references. *)
Definition heap_wf (h : heap) : Prop :=
  Forall (fun nd => Forall (fun e => e < length (heap_edges h)) (Node.edges nd)) (heap_nodes h)
  ∧ Forall (fun ed => Edge.source ed < length (heap_nodes h)
                      ∧ Edge.dest ed < length (heap_nodes h)) (heap_edges h).

Definition graph_wf (h : heap) (g : Graph.t) : Prop :=
  Forall (fun n => n < length (heap_nodes h)) (Graph.nodes g)
  ∧ Forall (fun e => e < length (heap_edges h)) (Graph.edges g).

(** The references of all nodes and edges of the store. *)
Definition universe (h : heap) : gset ref :=
  list_to_set (RNode <$> seq 0 (length (heap_nodes h)))
  ∪ list_to_set (REdge <$> seq 0 (length (heap_edges h))).

(** The objects one step away: the incident edges of a node, the two ends of
    an edge. *)
Definition links (h : heap) (r : ref) : list ref :=
  match r with
  | RNode n =>
      match heap_nodes h !! n with
      | Some nd => REdge <$> Node.edges nd
      | None => []
      end
  | REdge e =>
      match heap_edges h !! e with
      | Some ed => [RNode (Edge.source ed); RNode (Edge.dest ed)]
      | None => []
      end
  | ROther _ => []
  end.

(** What can be reached from the top-level lists of the graph. *)
Inductive reachable (h : heap) (g : Graph.t) : ref → Prop :=
| reach_node n : n ∈ Graph.nodes g → reachable h g (RNode n)
| reach_edge e : e ∈ Graph.edges g → reachable h g (REdge e)
| reach_link r r' : reachable h g r → r' ∈ links h r → reachable h g r'.

(** The state of the traversal is coherent: [memo] holds exactly the
    collected nodes and edges, each of them once. *)
Definition pinv (h : heap) (s : pstate) : Prop :=
  memo s = list_to_set (RNode <$> p_nodes s) ∪ list_to_set (REdge <$> p_edges s)
  ∧ NoDup (p_nodes s)
  ∧ NoDup (p_edges s)
  ∧ memo s ⊆ universe h.

(** How a call of [process] may change the state: it only appends, and
    whatever it adds to [memo] has its links in [memo] at the end. *)
Definition pstep (h : heap) (s s' : pstate) : Prop :=
  memo s ⊆ memo s'
  ∧ p_nodes s `prefix_of` p_nodes s'
  ∧ p_edges s `prefix_of` p_edges s'
  ∧ ∀ x, x ∈ memo s' → x ∉ memo s → ∀ y, y ∈ links h x → y ∈ memo s'.

(** [linked h a b]: [b] is one step away from [a]. *)
Definition linked (h : heap) (a b : ref) : Prop := b ∈ links h a.

(** [x] can be reached from an element of [roots]. *)
Definition reach_from (h : heap) (roots : list ref) (x : ref) : Prop :=
  ∃ r, r ∈ roots ∧ rtc (linked h) r x.

(** What one call of [process] achieves, stated for the recursive call that
    is handed to [Graph.visit]: with fewer than [bound] objects left to
    visit it returns, it has visited its whole argument, and what it has
    visited was reached from its argument. *)
Definition process_ok (h : heap) (rec : list ref → pstate → option pstate) (bound : nat) : Prop :=
  ∀ lst s,
    pinv h s → (∀ x, x ∈ lst → live h x) → size (universe h ∖ memo s) < bound →
    ∃ s', rec lst s = Some s' ∧ pinv h s' ∧ pstep h s s'
          ∧ (∀ x, x ∈ lst → x ∈ memo s')
          ∧ (∀ x, x ∈ memo s' → x ∈ memo s ∨ reach_from h lst x).

(** *** The walk as the specification words it

    A depth-first walk over a work list: the first pending object is
    skipped when it has been seen, and otherwise it is recorded at the end
    of [seen] and its links are put in front of the pending objects.  [seen]
    is the list of visited objects in the order of their first discovery. *)
Inductive dfs_step (h : heap) : list ref * list ref → list ref * list ref → Prop :=
| dfs_skip x work seen :
    x ∈ seen → dfs_step h (x :: work, seen) (work, seen)
| dfs_visit x work seen :
    x ∉ seen → dfs_step h (x :: work, seen) (links h x ++ work, seen ++ [x]).

(** The roots of the walk: the top-level vertices followed by the top-level
    arcs. *)
Definition roots (g : Graph.t) : list ref :=
  (RNode <$> Graph.nodes g) ++ (REdge <$> Graph.edges g).

Definition nodes_in (seen : list ref) : list nat :=
  omap (fun r => match r with RNode n => Some n | _ => None end) seen.

Definition edges_in (seen : list ref) : list nat :=
  omap (fun r => match r with REdge e => Some e | _ => None end) seen.

(** The state of [process] holds the objects of [seen], split by class. *)
Definition rep (seen : list ref) (s : pstate) : Prop :=
  memo s = list_to_set seen ∧ p_nodes s = nodes_in seen ∧ p_edges s = edges_in seen.

(** The recursive call handed to [Graph.visit] follows the walk. *)
Definition walk_ok (h : heap) (rec : list ref → pstate → option pstate) : Prop :=
  ∀ lst s s', rec lst s = Some s' →
    ∀ seen work, rep seen s →
      ∃ seen', rtc (dfs_step h) (lst ++ work, seen) (work, seen') ∧ rep seen' s'.

(** ** Sequences of registry operations *)

(** One operation on the registry of a graph, in some state of the store:
    [add] of a node whose name is not registered yet, [add] of an edge or of
    another object, the lookup-or-create access, and the removal of a name
    in the case where the first top-level entry that [list.remove] takes for
    the registered node is that node itself. *)
Inductive gstep : Graph.t → Graph.t → Prop :=
| step_add_node h g n nd :
    heap_nodes h !! n = Some nd →
    Graph._node_map g !! Node.name nd = None →
    gstep g (Graph.add h g (RNode n))
| step_add_edge h g e : gstep g (Graph.add h g (REdge e))
| step_add_other h g i : gstep g (Graph.add h g (ROther i))
| step_vertex h g key : gstep g (Graph.__getitem__ h g key).1.2
| step_remove h g key n :
    Graph._node_map g !! key = Some n →
    List.find (remove_hit h n) (Graph.nodes g) = Some n →
    gstep g (Graph.__delitem__ h g key).1.

(** The top-level list holds the registered nodes, each as often as it is
    registered. *)
Definition registry_matches (g : Graph.t) : Prop :=
  Graph.nodes g ≡ₚ (map_to_list (Graph._node_map g)).*2.

(** ** The scenario of the specification *)

(** Graph [g] with vertex A ([label] is [start]), vertex B ([label] is
    [end]) and the arc from A to B ([style] is [dashed]), all three
    registered with [add].  The arc is built by the constructor [Edge]. *)
Definition scenario : heap * Graph.t :=
  let '(h, a) := Node__init__ empty_heap "A" [("label", VStr "start")] in
  let '(h, b) := Node__init__ h "B" [("label", VStr "end")] in
  let '(h, e) := Edge__init__ h a b [("style", VStr "dashed")] in
  let g := Graph.__init__ "g" None in
  let g := Graph.add h g (RNode a) in
  let g := Graph.add h g (RNode b) in
  let g := Graph.add h g (REdge e) in
  (h, g).

(** The same graph with the arc declared by [A > B], which also records it
    in the incident arcs of both vertices. *)
Definition scenario_gt : heap * Graph.t :=
  let '(h, a) := Node__init__ empty_heap "A" [("label", VStr "start")] in
  let '(h, b) := Node__init__ h "B" [("label", VStr "end")] in
  let '(h, e) := Node__gt__ h a b in
  let h := Edge__setitem__ h e "style" (VStr "dashed") in
  let g := Graph.__init__ "g" None in
  let g := Graph.add h g (RNode a) in
  let g := Graph.add h g (RNode b) in
  let g := Graph.add h g (REdge e) in
  (h, g).

Definition scenario_text : string :=
  join nl
    [ "digraph " +:+ dq +:+ "g" +:+ dq +:+ " {";
      tab +:+ dq +:+ "A" +:+ dq +:+ " [label=" +:+ dq +:+ "start" +:+ dq +:+ "];";
      tab +:+ dq +:+ "B" +:+ dq +:+ " [label=" +:+ dq +:+ "end" +:+ dq +:+ "];";
      tab +:+ dq +:+ "A" +:+ dq +:+ " -> " +:+ dq +:+ "B" +:+ dq
          +:+ " [style=" +:+ dq +:+ "dashed" +:+ dq +:+ "];";
      "}" ].

(** Two vertices without attributes joined by [A > B], only A registered. *)
Definition plain_pair : heap * Graph.t :=
  let '(h, a) := Node__init__ empty_heap "A" [] in
  let '(h, b) := Node__init__ h "B" [] in
  let '(h, e) := Node__gt__ h a b in
  (h, Graph.add h (Graph.__init__ "g" None) (RNode a)).

(** [g['A']; g['B']] on a fresh graph. *)
Definition two_lookups : heap * Graph.t :=
  let '(h, g, _) := Graph.__getitem__ empty_heap (Graph.__init__ "g" None) "A" in
  let '(h, g, _) := Graph.__getitem__ h g "B" in
  (h, g).

(** [a = Node('A'); g.add(a); g.add(a)] on a fresh graph. *)
Definition added_twice : heap * Graph.t :=
  let '(h, a) := Node__init__ empty_heap "A" [] in
  let g := Graph.add h (Graph.__init__ "g" None) (RNode a) in
  (h, Graph.add h g (RNode a)).

(** [g.add(Node('A')); g.add(Node('A'))]: two nodes with one name. *)
Definition same_name_twice : heap * Graph.t :=
  let '(h, a1) := Node__init__ empty_heap "A" [] in
  let '(h, a2) := Node__init__ h "A" [] in
  let g := Graph.add h (Graph.__init__ "g" None) (RNode a1) in
  (h, Graph.add h g (RNode a2)).

(** An external process that writes nothing and ends with status 1. *)
Definition failing_tool (cmd : list string) (input : string) : completed :=
  Completed 1 EmptyString EmptyString.

(** ** Vocabulary of the further properties *)

(** The elements of a list in the order of their first occurrence. *)
Definition first_occurrences (l : list nat) : list nat :=
  foldl (fun acc x => if decide (x ∈ acc) then acc else acc ++ [x]) [] l.

(** What the traversal reads of a store: the incident arcs of each node and
    the two ends of each arc. *)
Definition shape (h : heap) : list (list nat) * list (nat * nat) :=
  (Node.edges <$> heap_nodes h, (fun ed => (Edge.source ed, Edge.dest ed)) <$> heap_edges h).

(** The attribute names of an arc that [Graph.__str__] leaves out. *)
Definition reserved (key : string) : bool := String.eqb key "source" || String.eqb key "dest".

(** [g['A']; g['B']; del g['B']; b['color'] = 'red'], where [b] is the node
    the second access returned: the name A is registered to a node that is
    not in the top-level list, and no entry of the list compares equal to
    it. *)
Definition stale_registry : heap * Graph.t :=
  let '(h, g, _) := Graph.__getitem__ empty_heap (Graph.__init__ "g" None) "A" in
  let '(h, g, b) := Graph.__getitem__ h g "B" in
  let g := (Graph.__delitem__ h g "B").1 in
  (Node__setitem__ h b "color" (VStr "red"), g).

(** The graph of the self-test at the end of the module:
    [root = Node('me'); root > Node('them'); root < Node(...); g.add(root)]
    on [Graph()].  The name of the third node is written [us] here, in
    ASCII. *)
Definition main_graph : heap * Graph.t :=
  let '(h, root) := Node__init__ empty_heap "me" [] in
  let '(h, them) := Node__init__ h "them" [] in
  let '(h, _) := Node__gt__ h root them in
  let '(h, us) := Node__init__ h "us" [] in
  let '(h, _) := Node__lt__ h root us in
  (h, Graph.add h (Graph.__init__ "graph" None) (RNode root)).

(** A tool that writes the bytes [PNG] to its output and a diagnostic, and
    ends with status 0. *)
Definition noisy_tool (cmd : list string) (input : string) : completed :=
  Completed 0 "PNG" "Warning: no fonts".

(** The scenario graph with a logger that has received nothing yet. *)
Definition scenario_logged : heap * Graph.t :=
  (scenario.1,
   Graph.mk (Graph.name scenario.2) (Some []) (Graph.nodes scenario.2)
            (Graph._node_map scenario.2) (Graph.attributes scenario.2)
            (Graph.edges scenario.2)).

(** * Properties *)

(** ** The traversal *)

Section Traversal.
Variable h : heap.
Hypothesis Hwf : heap_wf h.

Lemma elem_of_universe r : r ∈ universe h ↔ live h r.
Proof.
  unfold universe. rewrite elem_of_union, !elem_of_list_to_set, !list_elem_of_fmap.
  destruct r as [n|e|i]; simpl; split.
  - intros [(m & [= ->] & Hm)|(m & [=] & _)]. apply elem_of_seq in Hm. lia.
  - intros Hn. left. exists n. split; [done|]. apply elem_of_seq. lia.
  - intros [(m & [=] & _)|(m & [= ->] & Hm)]. apply elem_of_seq in Hm. lia.
  - intros He. right. exists e. split; [done|]. apply elem_of_seq. lia.
  - intros [(m & [=] & _)|(m & [=] & _)].
  - intros [].
Qed.

Lemma size_universe : size (universe h) < Graph.depth h.
Proof.
  unfold universe, Graph.depth.
  rewrite size_union.
  - rewrite !size_list_to_set.
    + rewrite !length_fmap, !length_seq. lia.
    + apply NoDup_fmap_2; [by intros ?? [=]|apply NoDup_seq].
    + apply NoDup_fmap_2; [by intros ?? [=]|apply NoDup_seq].
  - intros x. rewrite !elem_of_list_to_set, !list_elem_of_fmap.
    intros (n & -> & _) (e & [=] & _).
Qed.

Lemma links_live r y : live h r → y ∈ links h r → live h y.
Proof using Hwf.
  destruct Hwf as [Hn He].
  pose proof (proj1 (Forall_lookup _ _) Hn) as Hn'.
  pose proof (proj1 (Forall_lookup _ _) He) as He'.
  destruct r as [n|e|i]; simpl; [| |done].
  - intros _. destruct (heap_nodes h !! n) as [nd|] eqn:E; [|by intros ?%elem_of_nil].
    intros (e & -> & Hin)%list_elem_of_fmap. simpl.
    specialize (Hn' _ _ E). rewrite Forall_forall in Hn'. by apply Hn'.
  - intros _. destruct (heap_edges h !! e) as [ed|] eqn:E; [|by intros ?%elem_of_nil].
    destruct (He' _ _ E) as [Hs Hd].
    intros [->|[->|?%elem_of_nil]%elem_of_cons]%elem_of_cons; simpl; done.
Qed.

Lemma pstep_refl s : pstep h s s.
Proof. unfold pstep. split_and!; [done|done|done|]. intros x Hx Hnx. done. Qed.

Lemma pstep_trans s1 s2 s3 : pstep h s1 s2 → pstep h s2 s3 → pstep h s1 s3.
Proof.
  intros (Hm1 & Hn1 & He1 & Hc1) (Hm2 & Hn2 & He2 & Hc2).
  unfold pstep. split_and!.
  - set_solver.
  - by etrans.
  - by etrans.
  - intros x Hx Hnx y Hy.
    destruct (decide (x ∈ memo s2)) as [Hin|Hout].
    + apply Hm2. by apply (Hc1 x).
    + by apply (Hc2 x).
Qed.

Lemma size_unvisited_mono s s' :
  memo s ⊆ memo s' → (size (universe h ∖ memo s') ≤ size (universe h ∖ memo s))%nat.
Proof. intros Hsub. apply subseteq_size. set_solver. Qed.

Lemma size_unvisited_add item s :
  live h item → item ∉ memo s →
  size (universe h ∖ ({[item]} ∪ memo s)) < size (universe h ∖ memo s).
Proof.
  intros Hlive Hout. apply subset_size.
  apply elem_of_universe in Hlive. set_solver.
Qed.

Lemma pinv_push_node n s :
  pinv h s → live h (RNode n) → RNode n ∉ memo s →
  pinv h (PState ({[RNode n]} ∪ memo s) (p_nodes s ++ [n]) (p_edges s)).
Proof.
  intros (Hm & Hn & He & Hu) Hlive Hout. unfold pinv. simpl. split_and!.
  - rewrite Hm, fmap_app, list_to_set_app_L. simpl. set_solver.
  - apply NoDup_app. split_and!; [done| |apply NoDup_singleton].
    intros x Hx ->%list_elem_of_singleton. apply Hout. rewrite Hm.
    apply elem_of_union_l, elem_of_list_to_set, list_elem_of_fmap. eauto.
  - done.
  - apply elem_of_universe in Hlive. set_solver.
Qed.

Lemma pinv_push_edge e s :
  pinv h s → live h (REdge e) → REdge e ∉ memo s →
  pinv h (PState ({[REdge e]} ∪ memo s) (p_nodes s) (p_edges s ++ [e])).
Proof.
  intros (Hm & Hn & He & Hu) Hlive Hout. unfold pinv. simpl. split_and!.
  - rewrite Hm, fmap_app, list_to_set_app_L. simpl. set_solver.
  - done.
  - apply NoDup_app. split_and!; [done| |apply NoDup_singleton].
    intros x Hx ->%list_elem_of_singleton. apply Hout. rewrite Hm.
    apply elem_of_union_r, elem_of_list_to_set, list_elem_of_fmap. eauto.
  - apply elem_of_universe in Hlive. set_solver.
Qed.

Lemma visit_ok rec bound item s :
  process_ok h rec bound →
  pinv h s → live h item → size (universe h ∖ memo s) < S bound →
  ∃ s', Graph.visit h rec item s = Some s' ∧ pinv h s' ∧ pstep h s s'
        ∧ item ∈ memo s'
        ∧ (∀ x, x ∈ memo s' → x ∈ memo s ∨ rtc (linked h) item x).
Proof using Hwf.
  intros Hrec Hinv Hlive Hsz. unfold Graph.visit.
  destruct (decide (item ∈ memo s)) as [Hin|Hout].
  { exists s. split_and!; [done|done|apply pstep_refl|done|by left]. }
  pose proof (size_unvisited_add item s Hlive Hout) as Hlt.
  destruct item as [n|e|i]; simpl in *; [| |done].
  - destruct (lookup_lt_is_Some_2 _ _ Hlive) as [nd End]. rewrite End. simpl.
    pose proof (pinv_push_node n s Hinv Hlive Hout) as Hinv0.
    destruct (Hrec (REdge <$> Node.edges nd) _ Hinv0)
      as (s' & Hs' & Hinv' & Hstep' & Hall & Hsound).
    { intros x Hx. apply (links_live (RNode n)); [done|]. simpl. by rewrite End. }
    { simpl. lia. }
    exists s'. destruct Hstep' as (Hm & Hpn & Hpe & Hcl). simpl in *.
    split_and!; [done|done| |set_solver|].
    + unfold pstep. split_and!.
      * set_solver.
      * etrans; [|done]. by apply prefix_app_r.
      * done.
      * intros x Hx Hnx y Hy.
        destruct (decide (x = RNode n)) as [->|Hne].
        -- apply Hall. simpl in Hy. by rewrite End in Hy.
        -- apply (Hcl x); [done|set_solver|done].
    + intros x Hx. destruct (Hsound x Hx) as [Hx0|(r & Hr & Hrx)].
      * apply elem_of_union in Hx0 as [->%elem_of_singleton|Hx0]; [by right|by left].
      * right. eapply rtc_l; [|done]. unfold linked. simpl. by rewrite End.
  - destruct (lookup_lt_is_Some_2 _ _ Hlive) as [ed Eed]. rewrite Eed. simpl.
    pose proof (pinv_push_edge e s Hinv Hlive Hout) as Hinv0.
    assert (Hends : ∀ y, y ∈ links h (REdge e) → live h y).
    { intros y. by apply links_live. }
    simpl in Hends. rewrite Eed in Hends.
    destruct (Hrec [RNode (Edge.source ed)] _ Hinv0)
      as (s1 & Hs1 & Hinv1 & Hstep1 & Hall1 & Hsound1).
    { intros x ->%list_elem_of_singleton. apply Hends. set_solver. }
    { simpl. lia. }
    rewrite Hs1. simpl.
    destruct (Hrec [RNode (Edge.dest ed)] _ Hinv1)
      as (s2 & Hs2 & Hinv2 & Hstep2 & Hall2 & Hsound2).
    { intros x ->%list_elem_of_singleton. apply Hends. set_solver. }
    { destruct Hstep1 as (Hm1 & _). pose proof (size_unvisited_mono _ _ Hm1). simpl in *. lia. }
    exists s2. pose proof (pstep_trans _ _ _ Hstep1 Hstep2) as (Hm & Hpn & Hpe & Hcl).
    destruct Hstep2 as (Hm2 & _). simpl in *.
    split_and!; [done|done| |set_solver|].
    + unfold pstep. split_and!.
      * set_solver.
      * done.
      * etrans; [|done]. by apply prefix_app_r.
      * intros x Hx Hnx y Hy.
        destruct (decide (x = REdge e)) as [->|Hne].
        -- simpl in Hy. rewrite Eed in Hy. set_solver.
        -- apply (Hcl x); [done|set_solver|done].
    + assert (Hvia : ∀ y x, y ∈ links h (REdge e) → rtc (linked h) y x →
                            rtc (linked h) (REdge e) x).
      { intros y x Hy Hyx. by eapply rtc_l. }
      simpl in Hvia. rewrite Eed in Hvia.
      intros x Hx. destruct (Hsound2 x Hx) as [Hx1|(r & ->%list_elem_of_singleton & Hrx)].
      * destruct (Hsound1 x Hx1) as [Hx0|(r & ->%list_elem_of_singleton & Hrx)].
        -- apply elem_of_union in Hx0 as [->%elem_of_singleton|Hx0]; [by right|by left].
        -- right. eapply Hvia; [|done]. set_solver.
      * right. eapply Hvia; [|done]. set_solver.
Qed.

Lemma for_each_visit_ok rec bound :
  process_ok h rec bound → process_ok h (for_each (Graph.visit h rec)) (S bound).
Proof using Hwf.
  intros Hrec lst. induction lst as [|item rest IH]; intros s Hinv Hlive Hsz.
  - exists s. simpl. split_and!; [done|done|apply pstep_refl| |by left].
    intros x Hx. by apply elem_of_nil in Hx.
  - simpl.
    destruct (visit_ok rec bound item s Hrec Hinv)
      as (s1 & -> & Hinv1 & Hstep1 & Hin1 & Hsound1); [apply Hlive; left|done|].
    simpl. destruct (IH s1 Hinv1) as (s2 & Hs2 & Hinv2 & Hstep2 & Hall2 & Hsound2).
    { intros x Hx. apply Hlive. by right. }
    { destruct Hstep1 as (Hm1 & _). pose proof (size_unvisited_mono _ _ Hm1). lia. }
    exists s2. split_and!; [done|done|by eapply pstep_trans| |].
    + intros x [->|Hx]%elem_of_cons; [|by apply Hall2].
      destruct Hstep2 as (Hm2 & _). by apply Hm2.
    + intros x Hx. destruct (Hsound2 x Hx) as [Hx1|(r & Hr & Hrx)].
      * destruct (Hsound1 x Hx1) as [Hx0|Hix]; [by left|].
        right. exists item. split; [left|done].
      * right. exists r. split; [by right|done].
Qed.

(** [process] returns as soon as its fuel exceeds the number of objects
    not yet visited. *)
Lemma process_ok_fuel fuel : process_ok h (Graph.process h fuel) fuel.
Proof using Hwf.
  induction fuel as [|fuel IH].
  - intros lst s _ _ Hsz. lia.
  - simpl. by apply for_each_visit_ok.
Qed.

Lemma size_unvisited_depth s : size (universe h ∖ memo s) < Graph.depth h.
Proof.
  eapply Nat.le_lt_trans; [|apply size_universe].
  apply subseteq_size. set_solver.
Qed.

Lemma pinv_initial : pinv h (PState ∅ [] []).
Proof. unfold pinv. simpl. split_and!; [set_solver|constructor|constructor|set_solver]. Qed.

Lemma reachable_rtc g r x : reachable h g r → rtc (linked h) r x → reachable h g x.
Proof.
  intros Hr Hrx. induction Hrx as [|a b c Hab _ IH]; [done|].
  apply IH. by eapply reach_link.
Qed.

Lemma elem_of_p_nodes s n : pinv h s → n ∈ p_nodes s ↔ RNode n ∈ memo s.
Proof.
  intros (-> & _). rewrite elem_of_union, !elem_of_list_to_set, !list_elem_of_fmap. split.
  - intros Hn. left. eauto.
  - intros [(m & [= ->] & Hm)|(m & [=] & _)]. done.
Qed.

Lemma elem_of_p_edges s e : pinv h s → e ∈ p_edges s ↔ REdge e ∈ memo s.
Proof.
  intros (-> & _). rewrite elem_of_union, !elem_of_list_to_set, !list_elem_of_fmap. split.
  - intros He. right. eauto.
  - intros [(m & [=] & _)|(m & [= ->] & Hm)]. done.
Qed.

(** The traversal of a well-formed graph returns, and it collects exactly
    the objects that can be reached from the top-level lists. *)
Lemma traverse_ok g :
  graph_wf h g →
  ∃ s, Graph.traverse h g = Some s ∧ pinv h s ∧ ∀ x, x ∈ memo s ↔ reachable h g x.
Proof using Hwf.
  intros [Hgn Hge]. rewrite Forall_forall in Hgn. rewrite Forall_forall in Hge.
  unfold Graph.traverse.
  destruct (process_ok_fuel (Graph.depth h) (RNode <$> Graph.nodes g) _ pinv_initial)
    as (s1 & Hs1 & Hinv1 & Hstep1 & Hall1 & Hsound1).
  { intros x (n & -> & Hn)%list_elem_of_fmap. simpl. by apply Hgn. }
  { apply size_unvisited_depth. }
  destruct (process_ok_fuel (Graph.depth h) (REdge <$> Graph.edges g) _ Hinv1)
    as (s2 & Hs2 & Hinv2 & Hstep2 & Hall2 & Hsound2).
  { intros x (e & -> & He)%list_elem_of_fmap. simpl. by apply Hge. }
  { apply size_unvisited_depth. }
  exists s2. split_and!; [by rewrite Hs1|done|].
  pose proof (pstep_trans _ _ _ Hstep1 Hstep2) as (_ & _ & _ & Hcl).
  destruct Hstep2 as (Hm2 & _).
  intros x. split.
  - intros Hx. destruct (Hsound2 x Hx) as [Hx1|(r & (e & -> & He)%list_elem_of_fmap & Hrx)].
    + destruct (Hsound1 x Hx1) as [Hx0|(r & (n & -> & Hn)%list_elem_of_fmap & Hrx)].
      * simpl in Hx0. set_solver.
      * eapply reachable_rtc; [|done]. by apply reach_node.
    + eapply reachable_rtc; [|done]. by apply reach_edge.
  - induction 1 as [n Hn|e He|r r' _ IH Hl].
    + apply Hm2, Hall1, list_elem_of_fmap. eauto.
    + apply Hall2, list_elem_of_fmap. eauto.
    + apply (Hcl r); [done|simpl; set_solver|done].
Qed.

Lemma node_line_live n : live h (RNode n) → is_Some (Graph.node_line h n).
Proof.
  simpl. intros [nd End]%lookup_lt_is_Some_2. unfold Graph.node_line. rewrite End. simpl. eauto.
Qed.

Lemma edge_line_live e : live h (REdge e) → is_Some (Graph.edge_line h e).
Proof using Hwf.
  intros Hlive. pose proof (links_live (REdge e)) as Hl. simpl in Hl, Hlive.
  destruct (lookup_lt_is_Some_2 _ _ Hlive) as [ed Eed].
  rewrite Eed in Hl. unfold Graph.edge_line. rewrite Eed. simpl.
  destruct (lookup_lt_is_Some_2 (heap_nodes h) (Edge.source ed)) as [sn ->].
  { apply (Hl (RNode _)); [done|set_solver]. }
  destruct (lookup_lt_is_Some_2 (heap_nodes h) (Edge.dest ed)) as [dn ->].
  { apply (Hl (RNode _)); [done|set_solver]. }
  simpl. eauto.
Qed.

Lemma rep_push seen s x :
  rep seen s →
  rep (seen ++ [x])
      (PState ({[x]} ∪ memo s)
              (p_nodes s ++ match x with RNode n => [n] | _ => [] end)
              (p_edges s ++ match x with REdge e => [e] | _ => [] end)).
Proof using Type.
  clear Hwf. intros (Hm & Hn & He). unfold rep, nodes_in, edges_in. simpl.
  rewrite Hm, Hn, He, list_to_set_app_L, !omap_app. split_and!.
  - simpl. set_solver.
  - by destruct x.
  - by destruct x.
Qed.

Lemma visit_walk rec item s s' :
  walk_ok h rec → Graph.visit h rec item s = Some s' →
  ∀ seen work, rep seen s →
    ∃ seen', rtc (dfs_step h) (item :: work, seen) (work, seen') ∧ rep seen' s'.
Proof using Type.
  intros Hrec Hv seen work Hrep. unfold Graph.visit in Hv.
  destruct (decide (item ∈ memo s)) as [Hin|Hout].
  { injection Hv as <-. exists seen. split; [|done].
    apply rtc_once, dfs_skip. destruct Hrep as (Hm & _). rewrite Hm in Hin.
    by apply elem_of_list_to_set in Hin. }
  assert (Hfresh : item ∉ seen).
  { destruct Hrep as (Hm & _). rewrite Hm in Hout.
    intros Hin. apply Hout. by apply elem_of_list_to_set. }
  pose proof (rep_push seen s item Hrep) as Hrep0.
  destruct item as [n|e|i]; simpl in Hv, Hrep0 |- *.
  - destruct (heap_nodes h !! n) as [nd|] eqn:End; [|done]. simpl in Hv.
    rewrite app_nil_r in Hrep0.
    destruct (Hrec _ _ _ Hv _ work Hrep0) as (seen' & Hrun & Hrep').
    exists seen'. split; [|done].
    eapply rtc_l; [by apply dfs_visit|]. simpl. by rewrite End.
  - destruct (heap_edges h !! e) as [ed|] eqn:Eed; [|done]. simpl in Hv.
    rewrite app_nil_r in Hrep0.
    destruct (rec [RNode (Edge.source ed)] _) as [s1|] eqn:Hs1; [|done]. simpl in Hv.
    destruct (Hrec _ _ _ Hs1 _ (RNode (Edge.dest ed) :: work) Hrep0) as (seen1 & Hrun1 & Hrep1).
    destruct (Hrec _ _ _ Hv _ work Hrep1) as (seen2 & Hrun2 & Hrep2).
    exists seen2. split; [|done].
    eapply rtc_l; [by apply dfs_visit|]. simpl. rewrite Eed.
    etrans; [exact Hrun1|exact Hrun2].
  - injection Hv as <-. rewrite !app_nil_r in Hrep0.
    exists (seen ++ [ROther i]). split; [|done].
    apply rtc_once. by apply (dfs_visit h (ROther i)).
Qed.

Lemma for_each_visit_walk rec : walk_ok h rec → walk_ok h (for_each (Graph.visit h rec)).
Proof using Type.
  intros Hrec lst. induction lst as [|item rest IH]; intros s s' Hrun seen work Hrep.
  - injection Hrun as <-. by exists seen.
  - simpl in Hrun.
    destruct (Graph.visit h rec item s) as [s1|] eqn:Hv; [|done]. simpl in Hrun.
    destruct (visit_walk _ _ _ _ Hrec Hv seen (rest ++ work) Hrep) as (seen1 & Hrun1 & Hrep1).
    destruct (IH _ _ Hrun seen1 work Hrep1) as (seen2 & Hrun2 & Hrep2).
    exists seen2. split; [|done]. simpl. etrans; [exact Hrun1|exact Hrun2].
Qed.

(** Whatever [process] returns is what the walk of the specification
    reaches from the same objects. *)
Lemma process_walk fuel : walk_ok h (Graph.process h fuel).
Proof using Type.
  induction fuel as [|fuel IH].
  - intros lst s s' Hrun. done.
  - simpl. by apply for_each_visit_walk.
Qed.

Lemma traverse_walk g s :
  Graph.traverse h g = Some s →
  ∃ seen, rtc (dfs_step h) (roots g, []) ([], seen)
          ∧ p_nodes s = nodes_in seen ∧ p_edges s = edges_in seen.
Proof using Type.
  clear Hwf. unfold Graph.traverse. intros Hrun.
  destruct (Graph.process h (Graph.depth h) (RNode <$> Graph.nodes g) _) as [s1|] eqn:Hs1;
    [|done].
  change (Graph.process h (Graph.depth h) (REdge <$> Graph.edges g) s1 = Some s) in Hrun.
  destruct (process_walk _ _ _ _ Hs1 [] (REdge <$> Graph.edges g)) as (seen1 & Hrun1 & Hrep1).
  { unfold rep. simpl. split_and!; [set_solver|done|done]. }
  destruct (process_walk _ _ _ _ Hrun seen1 [] Hrep1) as (seen2 & Hrun2 & Hrep2).
  rewrite app_nil_r in Hrun2.
  exists seen2. destruct Hrep2 as (_ & Hn & He). split_and!; [|done|done].
  unfold roots. etrans; [exact Hrun1|exact Hrun2].
Qed.

End Traversal.

(** ** Serialization *)

(** For a well-formed graph [Graph.lines] returns: the header, the graph
    attributes, one line for each collected node, one for each collected
    edge, and the closing brace. *)
Lemma lines_ok h g :
  heap_wf h → graph_wf h g →
  ∃ s node_lines edge_lines,
    Graph.traverse h g = Some s
    ∧ pinv h s
    ∧ (∀ x, x ∈ memo s ↔ reachable h g x)
    ∧ mapM (Graph.node_line h) (p_nodes s) = Some node_lines
    ∧ mapM (Graph.edge_line h) (p_edges s) = Some edge_lines
    ∧ Graph.lines h g
      = Some ([Graph.header g] ++ map Graph.attr_line (Graph.attributes g)
              ++ node_lines ++ edge_lines ++ ["}"]).
Proof.
  intros Hwf Hg. destruct (traverse_ok h Hwf g Hg) as (s & Hs & Hinv & Hreach).
  assert (Hlive : ∀ x, x ∈ memo s → live h x).
  { intros x Hx. apply elem_of_universe. destruct Hinv as (_ & _ & _ & Hu). by apply Hu. }
  destruct (mapM_is_Some_2 (Graph.node_line h) (p_nodes s)) as [node_lines Hnl].
  { apply Forall_forall. intros n Hn. apply node_line_live, Hlive.
    by apply (elem_of_p_nodes h s n Hinv). }
  destruct (mapM_is_Some_2 (Graph.edge_line h) (p_edges s)) as [edge_lines Hel].
  { apply Forall_forall. intros e He. apply edge_line_live; [done|]. apply Hlive.
    by apply (elem_of_p_edges h s e Hinv). }
  exists s, node_lines, edge_lines. split_and!; try done.
  unfold Graph.lines. rewrite Hs. simpl. rewrite Hnl. simpl. by rewrite Hel.
Qed.

(** C4: the serialized text of a well-formed graph is produced, and it has
    one line for each collected vertex followed by one line for each
    collected arc; the collected vertices and arcs are free of repetitions,
    they are exactly the objects reachable from the top-level lists, and
    they are listed in the order in which a depth-first walk from the
    top-level vertices followed by the top-level arcs first discovers
    them. *)
Theorem serialize_each_object_once h g :
  heap_wf h → graph_wf h g →
  ∃ s seen node_lines edge_lines,
    Graph.traverse h g = Some s
    ∧ NoDup (p_nodes s) ∧ NoDup (p_edges s)
    ∧ (∀ n, n ∈ p_nodes s ↔ reachable h g (RNode n))
    ∧ (∀ e, e ∈ p_edges s ↔ reachable h g (REdge e))
    ∧ rtc (dfs_step h) (roots g, []) ([], seen)
    ∧ p_nodes s = nodes_in seen ∧ p_edges s = edges_in seen
    ∧ Forall2 (fun n l => Graph.node_line h n = Some l) (p_nodes s) node_lines
    ∧ Forall2 (fun e l => Graph.edge_line h e = Some l) (p_edges s) edge_lines
    ∧ Graph.__str__ h g
      = Some (join nl ([Graph.header g] ++ map Graph.attr_line (Graph.attributes g)
                       ++ node_lines ++ edge_lines ++ ["}"])).
Proof.
  intros Hwf Hg.
  destruct (lines_ok h g Hwf Hg) as (s & node_lines & edge_lines & Hs & Hinv & Hreach & Hnl & Hel & Hl).
  destruct (traverse_walk h g s Hs) as (seen & Hwalk & Hn & He).
  exists s, seen, node_lines, edge_lines.
  pose proof Hinv as (_ & Hnd & Hed & _).
  split_and!; try done.
  - intros n. rewrite <- Hreach. exact (elem_of_p_nodes h s n Hinv).
  - intros e. rewrite <- Hreach. exact (elem_of_p_edges h s e Hinv).
  - by apply mapM_Some_1.
  - by apply mapM_Some_1.
  - unfold Graph.__str__. by rewrite Hl.
Qed.

(** Well-formedness of a store or graph given in full is settled by
    looking at each of its objects. *)
Ltac wf_by_cases :=
  vm_compute; repeat first [split | constructor]; lia.

Lemma scenario_wf : heap_wf scenario.1 ∧ graph_wf scenario.1 scenario.2.
Proof. split; unfold heap_wf, graph_wf; split; wf_by_cases. Qed.

Lemma scenario_gt_wf : heap_wf scenario_gt.1 ∧ graph_wf scenario_gt.1 scenario_gt.2.
Proof. split; unfold heap_wf, graph_wf; split; wf_by_cases. Qed.

Lemma plain_pair_wf : heap_wf plain_pair.1 ∧ graph_wf plain_pair.1 plain_pair.2.
Proof. split; unfold heap_wf, graph_wf; split; wf_by_cases. Qed.

(** C1: the graph [g] with the registered vertices A ([label] is [start])
    and B ([label] is [end]) and the registered arc from A to B ([style] is
    [dashed]) serializes to the header line, the line of A, the line of B,
    the line of the arc and the closing line, joined by newlines in that
    order; this holds whether the arc was built by its constructor or
    declared with the outward relation. *)
Theorem scenario_serializes :
  Graph.__str__ scenario.1 scenario.2 = Some scenario_text
  ∧ Graph.__str__ scenario_gt.1 scenario_gt.2 = Some scenario_text.
Proof. split; vm_compute; reflexivity. Qed.

Lemma serialize_each_object_once_witness :
  ∃ s seen node_lines edge_lines,
    Graph.traverse scenario_gt.1 scenario_gt.2 = Some s
    ∧ NoDup (p_nodes s) ∧ NoDup (p_edges s)
    ∧ (∀ n, n ∈ p_nodes s ↔ reachable scenario_gt.1 scenario_gt.2 (RNode n))
    ∧ (∀ e, e ∈ p_edges s ↔ reachable scenario_gt.1 scenario_gt.2 (REdge e))
    ∧ rtc (dfs_step scenario_gt.1) (roots scenario_gt.2, []) ([], seen)
    ∧ p_nodes s = nodes_in seen ∧ p_edges s = edges_in seen
    ∧ Forall2 (fun n l => Graph.node_line scenario_gt.1 n = Some l) (p_nodes s) node_lines
    ∧ Forall2 (fun e l => Graph.edge_line scenario_gt.1 e = Some l) (p_edges s) edge_lines
    ∧ Graph.__str__ scenario_gt.1 scenario_gt.2
      = Some (join nl ([Graph.header scenario_gt.2]
                       ++ map Graph.attr_line (Graph.attributes scenario_gt.2)
                       ++ node_lines ++ edge_lines ++ ["}"])).
Proof.
  apply (serialize_each_object_once scenario_gt.1 scenario_gt.2).
  - unfold heap_wf; split; wf_by_cases.
  - unfold graph_wf; split; wf_by_cases.
Defined.

Lemma mapM_elem_of {A B : Type} (f : A → option B) (l : list A) (k : list B) x y :
  mapM f l = Some k → x ∈ l → f x = Some y → y ∈ k.
Proof.
  intros Hm%mapM_Some_1 Hx Hy.
  apply list_elem_of_lookup in Hx as [i Hi].
  destruct (Forall2_lookup_l _ _ _ _ _ Hm Hi) as (y' & Hk & Hy').
  rewrite Hy in Hy'. injection Hy' as <-.
  apply list_elem_of_lookup. eauto.
Qed.

(** Every reachable object of a well-formed graph has its line in the
    serialized text. *)
Lemma reachable_emitted h g :
  heap_wf h → graph_wf h g →
  ∃ lines, Graph.lines h g = Some lines
    ∧ (∀ n l, reachable h g (RNode n) → Graph.node_line h n = Some l → l ∈ lines)
    ∧ (∀ e l, reachable h g (REdge e) → Graph.edge_line h e = Some l → l ∈ lines).
Proof.
  intros Hwf Hg.
  destruct (lines_ok h g Hwf Hg)
    as (s & node_lines & edge_lines & Hs & Hinv & Hreach & Hnl & Hel & Hl).
  eexists. split; [exact Hl|]. split.
  - intros n l Hn Hline. apply Hreach, (elem_of_p_nodes h s n Hinv) in Hn.
    pose proof (mapM_elem_of _ _ _ _ _ Hnl Hn Hline) as Hin.
    rewrite !elem_of_app. right. right. by left.
  - intros e l He Hline. apply Hreach, (elem_of_p_edges h s e Hinv) in He.
    pose proof (mapM_elem_of _ _ _ _ _ Hel He Hline) as Hin.
    rewrite !elem_of_app. right. right. right. by left.
Qed.

(** C9: the serialized text of a well-formed graph is the header, the
    attribute lines of the graph, one line for each collected vertex, one
    for each collected arc, and the closing brace, and every reachable
    vertex and arc is collected.  Each vertex line and each arc line
    carries the bracketed attribute list, whether the object has attributes
    or not; with no attributes the brackets are empty, not omitted. *)
Theorem empty_attribute_brackets h g :
  heap_wf h → graph_wf h g →
  ∃ s node_lines edge_lines,
    Graph.traverse h g = Some s
    ∧ Graph.lines h g
      = Some ([Graph.header g] ++ map Graph.attr_line (Graph.attributes g)
              ++ node_lines ++ edge_lines ++ ["}"])
    ∧ (∀ n, reachable h g (RNode n) → n ∈ p_nodes s)
    ∧ (∀ e, reachable h g (REdge e) → e ∈ p_edges s)
    ∧ Forall2
        (fun n l =>
           ∃ nd, heap_nodes h !! n = Some nd
             ∧ l = tab +:+ dq +:+ Node.name nd +:+ dq +:+ " ["
                   +:+ join ", " (map (fun kv => kv.1 +:+ "=" +:+ dq
                                                 +:+ _handle_attribute_value kv.2 +:+ dq)
                                      (Node.items nd))
                   +:+ "];"
             ∧ (Node.items nd = [] → l = tab +:+ dq +:+ Node.name nd +:+ dq +:+ " [];"))
        (p_nodes s) node_lines
    ∧ Forall2
        (fun e l =>
           ∃ ed sn dn, heap_edges h !! e = Some ed
             ∧ heap_nodes h !! Edge.source ed = Some sn
             ∧ heap_nodes h !! Edge.dest ed = Some dn
             ∧ l = tab +:+ dq +:+ Node.name sn +:+ dq +:+ " -> "
                   +:+ dq +:+ Node.name dn +:+ dq +:+ " ["
                   +:+ join ", " (map (fun kv => kv.1 +:+ "=" +:+ dq
                                                 +:+ _handle_attribute_value kv.2 +:+ dq)
                                      (List.filter (fun kv => negb (reserved kv.1))
                                                   (Edge.items ed)))
                   +:+ "];"
             ∧ (Edge.items ed = [] →
                l = tab +:+ dq +:+ Node.name sn +:+ dq +:+ " -> "
                    +:+ dq +:+ Node.name dn +:+ dq +:+ " [];"))
        (p_edges s) edge_lines.
Proof.
  intros Hwf Hg.
  destruct (lines_ok h g Hwf Hg)
    as (s & node_lines & edge_lines & Hs & Hinv & Hreach & Hnl & Hel & Hl).
  exists s, node_lines, edge_lines. split_and!; [done|done| | | |].
  - intros n Hn. by apply (elem_of_p_nodes h s n Hinv), Hreach.
  - intros e He. by apply (elem_of_p_edges h s e Hinv), Hreach.
  - eapply Forall2_impl; [by apply mapM_Some_1|]. simpl. intros n l Hline.
    unfold Graph.node_line in Hline.
    destruct (heap_nodes h !! n) as [nd|]; [|done]. simpl in Hline. injection Hline as <-.
    exists nd. split_and!; [done|done|]. intros Hempty. unfold Graph.quoted_attrs.
    by rewrite Hempty.
  - eapply Forall2_impl; [by apply mapM_Some_1|]. simpl. intros e l Hline.
    unfold Graph.edge_line in Hline.
    destruct (heap_edges h !! e) as [ed|]; [|done]. simpl in Hline.
    destruct (heap_nodes h !! Edge.source ed) as [sn|] eqn:Esn; [|done]. simpl in Hline.
    destruct (heap_nodes h !! Edge.dest ed) as [dn|] eqn:Edn; [|done]. simpl in Hline.
    injection Hline as <-.
    exists ed, sn, dn. split_and!; [done|done|done|reflexivity|]. intros Hempty.
    unfold Graph.quoted_attrs. by rewrite Hempty.
Qed.

Lemma empty_attribute_brackets_witness :
  ∃ s node_lines edge_lines,
    Graph.traverse plain_pair.1 plain_pair.2 = Some s
    ∧ Graph.lines plain_pair.1 plain_pair.2
      = Some ([Graph.header plain_pair.2] ++ map Graph.attr_line (Graph.attributes plain_pair.2)
              ++ node_lines ++ edge_lines ++ ["}"])
    ∧ (∀ n, reachable plain_pair.1 plain_pair.2 (RNode n) → n ∈ p_nodes s)
    ∧ (∀ e, reachable plain_pair.1 plain_pair.2 (REdge e) → e ∈ p_edges s)
    ∧ Forall2
        (fun n l =>
           ∃ nd, heap_nodes plain_pair.1 !! n = Some nd
             ∧ l = tab +:+ dq +:+ Node.name nd +:+ dq +:+ " ["
                   +:+ join ", " (map (fun kv => kv.1 +:+ "=" +:+ dq
                                                 +:+ _handle_attribute_value kv.2 +:+ dq)
                                      (Node.items nd))
                   +:+ "];"
             ∧ (Node.items nd = [] → l = tab +:+ dq +:+ Node.name nd +:+ dq +:+ " [];"))
        (p_nodes s) node_lines
    ∧ Forall2
        (fun e l =>
           ∃ ed sn dn, heap_edges plain_pair.1 !! e = Some ed
             ∧ heap_nodes plain_pair.1 !! Edge.source ed = Some sn
             ∧ heap_nodes plain_pair.1 !! Edge.dest ed = Some dn
             ∧ l = tab +:+ dq +:+ Node.name sn +:+ dq +:+ " -> "
                   +:+ dq +:+ Node.name dn +:+ dq +:+ " ["
                   +:+ join ", " (map (fun kv => kv.1 +:+ "=" +:+ dq
                                                 +:+ _handle_attribute_value kv.2 +:+ dq)
                                      (List.filter (fun kv => negb (reserved kv.1))
                                                   (Edge.items ed)))
                   +:+ "];"
             ∧ (Edge.items ed = [] →
                l = tab +:+ dq +:+ Node.name sn +:+ dq +:+ " -> "
                    +:+ dq +:+ Node.name dn +:+ dq +:+ " [];"))
        (p_edges s) edge_lines.
Proof.
  apply (empty_attribute_brackets plain_pair.1 plain_pair.2).
  - unfold heap_wf; split; wf_by_cases.
  - unfold graph_wf; split; wf_by_cases.
Defined.

Example plain_pair_lines :
  Graph.lines plain_pair.1 plain_pair.2
  = Some [ "digraph " +:+ dq +:+ "g" +:+ dq +:+ " {";
           tab +:+ dq +:+ "A" +:+ dq +:+ " [];";
           tab +:+ dq +:+ "B" +:+ dq +:+ " [];";
           tab +:+ dq +:+ "A" +:+ dq +:+ " -> " +:+ dq +:+ "B" +:+ dq +:+ " [];";
           "}" ].
Proof. vm_compute. reflexivity. Qed.

(** ** Removal *)

Lemma list_remove_subseteq h x l l' : list_remove h x l = Some l' → l' ⊆ l.
Proof.
  revert l'. induction l as [|y l IH]; intros l' Hr; simpl in Hr; [done|].
  destruct (remove_hit h x y).
  - injection Hr as <-. set_solver.
  - destruct (list_remove h x l) as [k|]; [|done]. injection Hr as <-.
    specialize (IH k eq_refl). set_solver.
Qed.

(** What [list.remove] does when the first entry it takes for [x] is [x]
    itself: it drops the first occurrence of [x]. *)
Lemma list_remove_self h x l :
  List.find (remove_hit h x) l = Some x →
  ∃ l1 l2, l = l1 ++ x :: l2 ∧ list_remove h x l = Some (l1 ++ l2).
Proof.
  induction l as [|y l IH]; simpl; [done|].
  destruct (remove_hit h x y) eqn:Hy.
  - intros [= ->]. by exists [], l.
  - intros Hf. destruct (IH Hf) as (l1 & l2 & -> & ->). by exists (y :: l1), l2.
Qed.

Lemma delitem_edges h g key : Graph.edges (Graph.__delitem__ h g key).1 = Graph.edges g.
Proof.
  unfold Graph.__delitem__. destruct (Graph._node_map g !! key); [|done]. simpl.
  by destruct (list_remove h _ (Graph.nodes g)).
Qed.

Lemma delitem_nodes h g key : Graph.nodes (Graph.__delitem__ h g key).1 ⊆ Graph.nodes g.
Proof.
  unfold Graph.__delitem__. destruct (Graph._node_map g !! key) as [n|]; [|done]. simpl.
  destruct (list_remove h n (Graph.nodes g)) as [l|] eqn:Hr; [|done]. simpl.
  by eapply list_remove_subseteq.
Qed.

Lemma delitem_graph_wf h g key : graph_wf h g → graph_wf h (Graph.__delitem__ h g key).1.
Proof.
  intros [Hn He]. split.
  - rewrite Forall_forall in Hn. apply Forall_forall. intros n Hin. apply Hn.
    by eapply delitem_nodes.
  - by rewrite delitem_edges.
Qed.

(** C10: after the removal of a registered name, the vertex it named still
    has its line in the serialized text as long as an arc that can be
    reached from the top-level lists has it as source or destination. *)
Theorem removed_vertex_still_emitted h g key n e ed :
  heap_wf h → graph_wf h g →
  Graph._node_map g !! key = Some n →
  reachable h (Graph.__delitem__ h g key).1 (REdge e) →
  heap_edges h !! e = Some ed →
  Edge.source ed = n ∨ Edge.dest ed = n →
  Graph._node_map (Graph.__delitem__ h g key).1 !! key = None
  ∧ ∃ lines line,
      Graph.lines h (Graph.__delitem__ h g key).1 = Some lines
      ∧ Graph.node_line h n = Some line
      ∧ line ∈ lines.
Proof.
  intros Hwf Hg Hkey Hreach Eed Hend. split.
  { unfold Graph.__delitem__. rewrite Hkey. simpl.
    destruct (list_remove h n (Graph.nodes g)); simpl; apply lookup_delete_eq. }
  pose proof (delitem_graph_wf h g key Hg) as Hg'.
  destruct (reachable_emitted h _ Hwf Hg') as (lines & Hl & Hnodes & _).
  assert (Hn : reachable h (Graph.__delitem__ h g key).1 (RNode n)).
  { apply (reach_link _ _ (REdge e)); [done|]. simpl. rewrite Eed.
    destruct Hend as [<-|<-]; set_solver. }
  assert (Hlive : live h (RNode n)).
  { apply (links_live h Hwf (REdge e)).
    - simpl. by eapply lookup_lt_Some.
    - simpl. rewrite Eed. destruct Hend as [<-|<-]; set_solver. }
  destruct (node_line_live h n Hlive) as [line Hline].
  exists lines, line. split_and!; [done|done|]. by apply (Hnodes n).
Qed.

Lemma removed_vertex_still_emitted_witness :
  Graph._node_map (Graph.__delitem__ scenario_gt.1 scenario_gt.2 "B").1 !! "B" = None
  ∧ ∃ lines line,
      Graph.lines scenario_gt.1 (Graph.__delitem__ scenario_gt.1 scenario_gt.2 "B").1
      = Some lines
      ∧ Graph.node_line scenario_gt.1 1 = Some line
      ∧ line ∈ lines.
Proof.
  apply (removed_vertex_still_emitted scenario_gt.1 scenario_gt.2 "B" 1 0
           (Edge.mk 0 1 [("style", VStr "dashed")])).
  - unfold heap_wf; split; wf_by_cases.
  - unfold graph_wf; split; wf_by_cases.
  - vm_compute. reflexivity.
  - apply reach_edge. vm_compute. left.
  - vm_compute. reflexivity.
  - right. reflexivity.
Defined.

Example removal_keeps_line :
  Graph.nodes (Graph.__delitem__ scenario_gt.1 scenario_gt.2 "B").1 = [0]
  ∧ Graph.lines scenario_gt.1 (Graph.__delitem__ scenario_gt.1 scenario_gt.2 "B").1
    = Graph.lines scenario_gt.1 scenario_gt.2.
Proof. split; vm_compute; reflexivity. Qed.

Lemma delitem_unregistered h g key :
  Graph._node_map g !! key = None →
  Graph.__delitem__ h g key = (g, Some (KeyError key)).
Proof. intros Hkey. unfold Graph.__delitem__. by rewrite Hkey. Qed.

(** When the first entry that [list.remove] takes for the registered node
    is that node, the name leaves the registry and one occurrence of the
    node leaves the top-level list. *)
Lemma delitem_self h g key n :
  Graph._node_map g !! key = Some n →
  List.find (remove_hit h n) (Graph.nodes g) = Some n →
  ∃ l1 l2, Graph.nodes g = l1 ++ n :: l2
    ∧ Graph.__delitem__ h g key
      = (Graph.mk (Graph.name g) (Graph.log g) (l1 ++ l2) (delete key (Graph._node_map g))
                  (Graph.attributes g) (Graph.edges g), None).
Proof.
  intros Hkey Hfind. destruct (list_remove_self h n _ Hfind) as (l1 & l2 & Hl & Hr).
  exists l1, l2. split; [done|]. unfold Graph.__delitem__. rewrite Hkey. simpl. by rewrite Hr.
Qed.

(** C6, at the input [g['A']; g['B']; del g['B']]: both vertices have no
    attributes, so [list.remove] takes A, the first entry, for B.  The name
    B leaves the registry, and it is A that leaves the top-level list: B is
    still in the list, and A is registered without being in it. *)
Theorem remove_takes_equal_vertex :
  Graph.nodes two_lookups.2 = [0; 1]
  ∧ Graph._node_map two_lookups.2 !! "A" = Some 0
  ∧ Graph._node_map two_lookups.2 !! "B" = Some 1
  ∧ (Graph.__delitem__ two_lookups.1 two_lookups.2 "B").2 = None
  ∧ Graph.nodes (Graph.__delitem__ two_lookups.1 two_lookups.2 "B").1 = [1]
  ∧ Graph._node_map (Graph.__delitem__ two_lookups.1 two_lookups.2 "B").1 !! "B" = None
  ∧ Graph._node_map (Graph.__delitem__ two_lookups.1 two_lookups.2 "B").1 !! "A" = Some 0.
Proof. split_and!; vm_compute; reflexivity. Qed.

(** ** The registry and the top-level list *)

Lemma registry_matches_init name log : registry_matches (Graph.__init__ name log).
Proof. unfold registry_matches. simpl. by rewrite map_to_list_empty. Qed.

Lemma registry_matches_insert g key n :
  Graph._node_map g !! key = None → registry_matches g →
  Graph.nodes g ++ [n] ≡ₚ (map_to_list (<[key := n]> (Graph._node_map g))).*2.
Proof.
  intros Hkey Hm. unfold registry_matches in Hm.
  rewrite map_to_list_insert by done. simpl.
  rewrite <- Hm. by rewrite Permutation_app_comm.
Qed.

Lemma gstep_registry_matches g g' : gstep g g' → registry_matches g → registry_matches g'.
Proof.
  intros Hstep Hm. destruct Hstep as [h g n nd End Hfree|h g e|h g i|h g key|h g key n Hkey Hfind].
  - unfold Graph.add. rewrite End. by apply registry_matches_insert.
  - done.
  - done.
  - unfold Graph.__getitem__. destruct (Graph._node_map g !! key) eqn:Hkey; [done|].
    simpl. by apply registry_matches_insert.
  - destruct (delitem_self h g key n Hkey Hfind) as (l1 & l2 & Hl & ->).
    unfold registry_matches in *. simpl.
    rewrite Hl in Hm. rewrite <- (map_to_list_delete _ _ _ Hkey) in Hm. simpl in Hm.
    rewrite <- Permutation_middle in Hm. by apply Permutation_cons_inv in Hm.
Qed.

Lemma registry_matches_iff g n :
  registry_matches g → n ∈ Graph.nodes g ↔ ∃ key, Graph._node_map g !! key = Some n.
Proof.
  intros Hm. unfold registry_matches in Hm. rewrite Hm, list_elem_of_fmap. split.
  - intros ([key m] & -> & Hin). exists key. by apply elem_of_map_to_list.
  - intros [key Hkey]. exists (key, n). split; [done|]. by apply elem_of_map_to_list.
Qed.

(** C5, as amended: in every graph obtained from a fresh one by adding
    nodes under names that are not registered yet, adding edges, looking
    names up, and removing names in the cases where [list.remove] takes the
    registered node itself, a node is in the top-level list exactly when it
    is registered under some name. *)
Theorem registry_iff_top_level name log g :
  rtc gstep (Graph.__init__ name log) g →
  ∀ n, n ∈ Graph.nodes g ↔ ∃ key, Graph._node_map g !! key = Some n.
Proof.
  intros Hrun n. apply registry_matches_iff.
  pose proof (registry_matches_init name log) as Hinit.
  induction Hrun as [|a b c Hab _ IH]; [done|].
  apply IH. by eapply gstep_registry_matches.
Qed.

Lemma registry_iff_top_level_witness :
  (0 ∈ Graph.nodes (Graph.__delitem__ scenario.1 scenario.2 "B").1
   ↔ ∃ key, Graph._node_map (Graph.__delitem__ scenario.1 scenario.2 "B").1 !! key = Some 0)
  ∧ (1 ∈ Graph.nodes (Graph.__delitem__ scenario.1 scenario.2 "B").1
     ↔ ∃ key, Graph._node_map (Graph.__delitem__ scenario.1 scenario.2 "B").1 !! key = Some 1).
Proof.
  assert (Hrun : rtc gstep (Graph.__init__ "g" None)
                     (Graph.__delitem__ scenario.1 scenario.2 "B").1).
  { eapply rtc_l.
    { apply (step_add_node scenario.1 _ 0 (Node.mk "A" [] [("label", VStr "start")]));
        vm_compute; reflexivity. }
    eapply rtc_l.
    { apply (step_add_node scenario.1 _ 1 (Node.mk "B" [] [("label", VStr "end")]));
        vm_compute; reflexivity. }
    eapply rtc_l.
    { apply (step_add_edge scenario.1 _ 0). }
    eapply rtc_l.
    { apply (step_remove scenario.1 _ "B" 1); vm_compute; reflexivity. }
    apply rtc_refl. }
  split.
  - exact (registry_iff_top_level "g" None _ Hrun 0).
  - exact (registry_iff_top_level "g" None _ Hrun 1).
Defined.

(** C5, as stated, fails after [g.add(Node('A')); g.add(Node('A'))]: the
    first node is in the top-level list and the name A is registered to the
    second one only. *)
Lemma registry_iff_counterexample :
  Graph.nodes same_name_twice.2 = [0; 1]
  ∧ 0 ∈ Graph.nodes same_name_twice.2
  ∧ ¬ ∃ key, Graph._node_map same_name_twice.2 !! key = Some 0.
Proof.
  split_and!; [done|by left|].
  intros [key Hkey].
  change (Graph._node_map same_name_twice.2)
    with (<["A" := 1]> (<["A" := 0]> (∅ : gmap string nat))) in Hkey.
  destruct (decide (key = "A")) as [->|Hne].
  - by rewrite lookup_insert_eq in Hkey.
  - by rewrite !lookup_insert_ne, lookup_empty in Hkey.
Qed.

(** ** Lookup-or-create *)

Lemma getitem_registered h g key n :
  Graph._node_map g !! key = Some n → Graph.__getitem__ h g key = (h, g, n).
Proof. intros Hkey. unfold Graph.__getitem__. by rewrite Hkey. Qed.

Lemma getitem_unregistered h g key :
  Graph._node_map g !! key = None →
  Graph.__getitem__ h g key
  = (Heap (heap_nodes h ++ [Node.mk key [] []]) (heap_edges h),
     Graph.mk (Graph.name g) (Graph.log g) (Graph.nodes g ++ [length (heap_nodes h)])
              (<[key := length (heap_nodes h)]> (Graph._node_map g))
              (Graph.attributes g) (Graph.edges g),
     length (heap_nodes h)).
Proof. intros Hkey. unfold Graph.__getitem__. by rewrite Hkey. Qed.

(** After the access the name is registered to the node that was returned. *)
Lemma getitem_registers h g key :
  Graph._node_map (Graph.__getitem__ h g key).1.2 !! key = Some (Graph.__getitem__ h g key).2.
Proof.
  destruct (Graph._node_map g !! key) as [n|] eqn:Hkey.
  - by rewrite (getitem_registered h g key n Hkey).
  - rewrite (getitem_unregistered h g key Hkey). simpl. apply lookup_insert_eq.
Qed.

(** C7, as amended: two consecutive accesses with one name return the
    identical node, and the second one changes neither the graph nor the
    store.  A registered name gives the node it is registered to and leaves
    the graph as it was; a name that is not registered gives a new node
    without attributes and edges, registered under the name and appended to
    the top-level list, where it then occurs exactly once. *)
Theorem vertex_idempotent h g key :
  graph_wf h g →
  Graph.__getitem__ (Graph.__getitem__ h g key).1.1 (Graph.__getitem__ h g key).1.2 key
  = Graph.__getitem__ h g key
  ∧ Graph._node_map (Graph.__getitem__ h g key).1.2 !! key = Some (Graph.__getitem__ h g key).2
  ∧ (∀ n, Graph._node_map g !! key = Some n → Graph.__getitem__ h g key = (h, g, n))
  ∧ (Graph._node_map g !! key = None →
       (Graph.__getitem__ h g key).2 = length (heap_nodes h)
       ∧ heap_nodes (Graph.__getitem__ h g key).1.1 = heap_nodes h ++ [Node.mk key [] []]
       ∧ heap_edges (Graph.__getitem__ h g key).1.1 = heap_edges h
       ∧ Graph.nodes (Graph.__getitem__ h g key).1.2
         = Graph.nodes g ++ [(Graph.__getitem__ h g key).2]
       ∧ Graph._node_map (Graph.__getitem__ h g key).1.2
         = <[key := (Graph.__getitem__ h g key).2]> (Graph._node_map g)
       ∧ count_occ Nat.eq_dec (Graph.nodes (Graph.__getitem__ h g key).1.2)
                   (Graph.__getitem__ h g key).2 = 1).
Proof.
  intros [Hnodes _]. split_and!.
  - pose proof (getitem_registers h g key) as Hreg.
    destruct (Graph.__getitem__ h g key) as [[h1 g1] v]. simpl in *.
    by apply getitem_registered.
  - apply getitem_registers.
  - intros n Hkey. by apply getitem_registered.
  - intros Hkey. rewrite (getitem_unregistered h g key Hkey). simpl.
    split_and!; try done.
    rewrite count_occ_app. simpl. destruct (Nat.eq_dec _ _) as [_|Hne]; [|done].
    rewrite (proj1 (count_occ_not_In Nat.eq_dec _ _)); [done|].
    intros Hin%list_elem_of_In. rewrite Forall_forall in Hnodes.
    specialize (Hnodes _ Hin). lia.
Qed.

Lemma vertex_idempotent_witness :
  Graph.__getitem__ (Graph.__getitem__ scenario.1 scenario.2 "C").1.1
                    (Graph.__getitem__ scenario.1 scenario.2 "C").1.2 "C"
  = Graph.__getitem__ scenario.1 scenario.2 "C"
  ∧ Graph._node_map (Graph.__getitem__ scenario.1 scenario.2 "C").1.2 !! "C"
    = Some (Graph.__getitem__ scenario.1 scenario.2 "C").2
  ∧ (∀ n, Graph._node_map scenario.2 !! "C" = Some n →
          Graph.__getitem__ scenario.1 scenario.2 "C" = (scenario.1, scenario.2, n))
  ∧ (Graph._node_map scenario.2 !! "C" = None →
       (Graph.__getitem__ scenario.1 scenario.2 "C").2 = length (heap_nodes scenario.1)
       ∧ heap_nodes (Graph.__getitem__ scenario.1 scenario.2 "C").1.1
         = heap_nodes scenario.1 ++ [Node.mk "C" [] []]
       ∧ heap_edges (Graph.__getitem__ scenario.1 scenario.2 "C").1.1 = heap_edges scenario.1
       ∧ Graph.nodes (Graph.__getitem__ scenario.1 scenario.2 "C").1.2
         = Graph.nodes scenario.2 ++ [(Graph.__getitem__ scenario.1 scenario.2 "C").2]
       ∧ Graph._node_map (Graph.__getitem__ scenario.1 scenario.2 "C").1.2
         = <["C" := (Graph.__getitem__ scenario.1 scenario.2 "C").2]> (Graph._node_map scenario.2)
       ∧ count_occ Nat.eq_dec (Graph.nodes (Graph.__getitem__ scenario.1 scenario.2 "C").1.2)
                   (Graph.__getitem__ scenario.1 scenario.2 "C").2 = 1).
Proof.
  apply (vertex_idempotent scenario.1 scenario.2 "C").
  unfold graph_wf; split; wf_by_cases.
Defined.

(** C7, as stated, fails after [a = Node('A'); g.add(a); g.add(a)]: both
    accesses return [a], and [a] occurs twice in the top-level list. *)
Lemma vertex_once_counterexample :
  (Graph.__getitem__ added_twice.1 added_twice.2 "A").2 = 0
  ∧ (Graph.__getitem__ (Graph.__getitem__ added_twice.1 added_twice.2 "A").1.1
                       (Graph.__getitem__ added_twice.1 added_twice.2 "A").1.2 "A").2 = 0
  ∧ count_occ Nat.eq_dec
      (Graph.nodes (Graph.__getitem__
                      (Graph.__getitem__ added_twice.1 added_twice.2 "A").1.1
                      (Graph.__getitem__ added_twice.1 added_twice.2 "A").1.2 "A").1.2) 0
    = 2
  ∧ count_occ Nat.eq_dec
      (Graph.nodes (Graph.__getitem__
                      (Graph.__getitem__ added_twice.1 added_twice.2 "A").1.1
                      (Graph.__getitem__ added_twice.1 added_twice.2 "A").1.2 "A").1.2) 0
    ≠ 1.
Proof. split_and!; vm_compute; first [reflexivity | discriminate]. Qed.

(** ** The outward relation *)

Lemma edges_append_nodes n e h :
  heap_nodes (edges_append n e h)
  = imap (fun i nd => Node.mk (Node.name nd)
                              (Node.edges nd ++ (if decide (i = n) then [e] else []))
                              (Node.items nd))
         (heap_nodes h).
Proof.
  apply list_eq. intros i. simpl. rewrite list_lookup_imap.
  destruct (decide (i = n)) as [->|Hne].
  - rewrite list_lookup_alter_eq. by destruct (heap_nodes h !! n).
  - rewrite list_lookup_alter_ne by done.
    destruct (heap_nodes h !! i) as [[]|]; simpl; [|done]. by rewrite app_nil_r.
Qed.

Lemma Node__gt__unfold h a b :
  Node__gt__ h a b
  = (edges_append b (length (heap_edges h))
       (edges_append a (length (heap_edges h))
          (Heap (heap_nodes h) (heap_edges h ++ [Edge.mk a b []]))),
     length (heap_edges h)).
Proof. reflexivity. Qed.

(** C8: [a > b] builds one new arc with source [a] and destination [b],
    leaves all other arcs as they were, returns the new arc, and appends it
    to the incident arcs of a vertex once if the vertex is [a] and once if
    it is [b]; names, attributes and the incident arcs recorded before are
    untouched. *)
Theorem gt_adds_one_arc h a b :
  (Node__gt__ h a b).2 = length (heap_edges h)
  ∧ heap_edges h !! (Node__gt__ h a b).2 = None
  ∧ heap_edges (Node__gt__ h a b).1 = heap_edges h ++ [Edge.mk a b []]
  ∧ heap_edges (Node__gt__ h a b).1 !! (Node__gt__ h a b).2 = Some (Edge.mk a b [])
  ∧ heap_nodes (Node__gt__ h a b).1
    = imap (fun n nd =>
              Node.mk (Node.name nd)
                      (Node.edges nd
                       ++ (if decide (n = a) then [(Node__gt__ h a b).2] else [])
                       ++ (if decide (n = b) then [(Node__gt__ h a b).2] else []))
                      (Node.items nd))
           (heap_nodes h).
Proof.
  rewrite Node__gt__unfold. cbn [fst snd]. split_and!.
  - done.
  - by apply lookup_ge_None_2.
  - done.
  - simpl. rewrite lookup_app_r by done. by rewrite Nat.sub_diag.
  - rewrite edges_append_nodes, edges_append_nodes. cbn [heap_nodes].
    apply list_eq. intros i. rewrite !list_lookup_imap.
    destruct (heap_nodes h !! i) as [nd|]; simpl; [|done]. by rewrite <- app_assoc.
Qed.

Example gt_distinct :
  let h := (Node__gt__ plain_pair.1 0 1).1 in
  Node.edges <$> heap_nodes plain_pair.1 = [[0]; [0]]
  ∧ Node.edges <$> heap_nodes h = [[0; 1]; [0; 1]]
  ∧ heap_edges h = [Edge.mk 0 1 []; Edge.mk 0 1 []].
Proof. split_and!; vm_compute; reflexivity. Qed.

Example gt_same_vertex :
  Node.edges <$> heap_nodes (Node__gt__ plain_pair.1 0 0).1 = [[0; 1; 1]; [0]].
Proof. vm_compute. reflexivity. Qed.

(** ** Rendering *)

(** X11: with a logger, [render] returns the captured output whatever the
    process did, and the logger receives one warning, made of the command
    line, the exit code and the diagnostic text, exactly when the process
    wrote diagnostic text or ended with a status other than zero. *)
Lemma render_with_logger popen h g dot_path format text received :
  Graph.__str__ h g = Some text →
  Graph.log g = Some received →
  let p := popen [dot_path; "-T" +:+ format] text in
  Graph.render popen h g dot_path format
  = Some (Graph.mk (Graph.name g)
            (Some (received
                   ++ if negb (String.eqb (error p) EmptyString) || negb (Z.eqb (returncode p) 0)
                      then [Warning (join " " [dot_path; "-T" +:+ format]) (returncode p) (error p)]
                      else []))
            (Graph.nodes g) (Graph._node_map g) (Graph.attributes g) (Graph.edges g),
          Return (out p)).
Proof.
  intros Htext Hlog p. unfold Graph.render. rewrite Htext. simpl. fold p. rewrite Hlog.
  rewrite bool_decide_eq_true_2 by eauto. simpl.
  destruct (negb (String.eqb (error p) EmptyString) || negb (Z.eqb (returncode p) 0)).
  - done.
  - rewrite app_nil_r. destruct g; simpl in *. by rewrite Hlog.
Qed.

(** Without a logger, [render] returns the captured output when the
    process ended with status zero, and raises when it did not. *)
Lemma render_without_logger popen h g dot_path format text :
  Graph.__str__ h g = Some text →
  Graph.log g = None →
  let p := popen [dot_path; "-T" +:+ format] text in
  Graph.render popen h g dot_path format
  = Some (g, if Z.eqb (returncode p) 0 then Return (out p) else Raise AttributeError).
Proof.
  intros Htext Hlog p. unfold Graph.render. rewrite Htext. simpl. fold p. rewrite Hlog.
  rewrite bool_decide_eq_false_2 by (by intros [? ?]). simpl.
  by destruct (Z.eqb (returncode p) 0).
Qed.

(** C2, at the graph of the scenario built without a logger and a tool
    that ends with status 1: [render] does not return the captured output,
    it raises [AttributeError] from the call of [warning] on [None]. *)
Theorem render_without_logger_raises :
  Graph.log scenario.2 = None
  ∧ returncode (failing_tool ["dot"; "-Tpng"] scenario_text) = 1%Z
  ∧ Graph.render failing_tool scenario.1 scenario.2 "dot" "png"
    = Some (scenario.2, Raise AttributeError).
Proof. split_and!; vm_compute; reflexivity. Qed.

(** ** Attribute formatting *)

(** The four cases of the formatter on the modelled values. *)
Lemma handle_attribute_value_cases :
  (∀ s, _handle_attribute_value (VStr s) = s)
  ∧ (∀ kvs, _handle_attribute_value (VItems kvs)
            = join ", " (map (fun kv => kv.1 +:+ "=" +:+ _handle_attribute_value kv.2) kvs))
  ∧ (∀ vs, _handle_attribute_value (VList vs) = join ", " (map _handle_attribute_value vs))
  ∧ (∀ vs, _handle_attribute_value (VTuple vs) = join ", " (map _handle_attribute_value vs))
  ∧ (∀ z, _handle_attribute_value (VInt z) = py_repr (VInt z))
  ∧ (∀ kvs, _handle_attribute_value (VDict kvs) = py_repr (VDict kvs)).
Proof. split_and!; reflexivity. Qed.

(** C3, at the dictionary [{'x': 1, 'y': 2}]: a [dict] of Python 3 has no
    [iteritems], so the formatter falls through to [repr] and the result is
    not the list of [key=value] pairs. *)
Theorem dict_value_formats_as_repr :
  _handle_attribute_value (VDict [("x", VInt 1); ("y", VInt 2)]) = "{'x': 1, 'y': 2}"
  ∧ _handle_attribute_value (VDict [("x", VInt 1); ("y", VInt 2)]) ≠ "x=1, y=2".
Proof. split; [reflexivity|discriminate]. Qed.

Example format_items_xy :
  _handle_attribute_value (VItems [("x", VInt 1); ("y", VInt 2)]) = "x=1, y=2".
Proof. reflexivity. Qed.

Example format_list_ab :
  _handle_attribute_value (VList [VStr "a"; VStr "b"]) = "a, b".
Proof. reflexivity. Qed.

Example format_nested :
  _handle_attribute_value (VTuple [VStr "a"; VList [VInt (-3); VStr "it's"]; VList []])
  = "a, -3, it's, ".
Proof. reflexivity. Qed.

Example repr_examples :
  py_repr (VStr "it's") = dq +:+ "it's" +:+ dq
  ∧ py_repr (VTuple [VInt 1]) = "(1,)"
  ∧ py_repr (VList [VStr "a"; VTuple []]) = "['a', ()]".
Proof. split_and!; reflexivity. Qed.


(** * Further properties *)

(** ** The inward relation *)

Lemma edges_append_comm a b e h :
  edges_append a e (edges_append b e h) = edges_append b e (edges_append a e h).
Proof.
  assert (Hn : heap_nodes (edges_append a e (edges_append b e h))
               = heap_nodes (edges_append b e (edges_append a e h))).
  { rewrite !edges_append_nodes. apply list_eq. intros i. rewrite !list_lookup_imap.
    destruct (heap_nodes h !! i) as [nd|]; simpl; [|done].
    destruct (decide (i = a)), (decide (i = b)); simpl; by rewrite ?app_nil_r. }
  unfold edges_append in *. simpl in *. by rewrite Hn.
Qed.

(** X1: [a < b] is [b > a]: it builds the arc from [b] to [a], records it
    in the incident arcs of both vertices and returns it. *)
Theorem lt_is_reversed_gt h a b : Node__lt__ h a b = Node__gt__ h b a.
Proof.
  rewrite Node__gt__unfold.
  change (Node__lt__ h a b)
    with (edges_append b (length (heap_edges h))
            (edges_append a (length (heap_edges h))
               (Heap (heap_nodes h) (heap_edges h ++ [Edge.mk b a []]))),
          length (heap_edges h)).
  by rewrite edges_append_comm.
Qed.

(** ** Registration, lookup and removal together *)

(** X2: after [g.add(node)] the access [g[node.name]] returns that very
    node, whatever was registered under the name before, and creates
    nothing. *)
Theorem add_then_lookup h g n nd :
  heap_nodes h !! n = Some nd →
  Graph.__getitem__ h (Graph.add h g (RNode n)) (Node.name nd)
  = (h, Graph.add h g (RNode n), n).
Proof.
  intros End. apply getitem_registered. unfold Graph.add. rewrite End. simpl.
  apply lookup_insert_eq.
Qed.

Lemma add_then_lookup_witness :
  Graph.__getitem__ same_name_twice.1
    (Graph.add same_name_twice.1 same_name_twice.2 (RNode 0)) "A"
  = (same_name_twice.1, Graph.add same_name_twice.1 same_name_twice.2 (RNode 0), 0).
Proof.
  apply (add_then_lookup same_name_twice.1 same_name_twice.2 0 (Node.mk "A" [] [])).
  reflexivity.
Defined.

Lemma list_remove_last h x l :
  Forall (fun y => remove_hit h x y = false) l →
  remove_hit h x x = true →
  list_remove h x (l ++ [x]) = Some l.
Proof.
  intros Hl Hx. induction Hl as [|y l Hy _ IH]; simpl.
  - by rewrite Hx.
  - by rewrite Hy, IH.
Qed.

Lemma list_remove_none h x l :
  Forall (fun y => remove_hit h x y = false) l → list_remove h x l = None.
Proof.
  intros Hl. induction Hl as [|y l Hy _ IH]; simpl; [done|]. by rewrite Hy, IH.
Qed.

Lemma remove_hit_self h x : remove_hit h x x = true.
Proof. unfold remove_hit. by rewrite Nat.eqb_refl. Qed.

(** X3: registering a node under a name that is not registered and
    removing the name again gives the graph back, provided no top-level
    entry is the node or has attributes equal to the node's. *)
Theorem add_then_remove h g n nd :
  heap_nodes h !! n = Some nd →
  Graph._node_map g !! Node.name nd = None →
  Forall (fun y => remove_hit h n y = false) (Graph.nodes g) →
  Graph.__delitem__ h (Graph.add h g (RNode n)) (Node.name nd) = (g, None).
Proof.
  intros End Hfree Hmiss. unfold Graph.add. rewrite End.
  unfold Graph.__delitem__. simpl. rewrite lookup_insert_eq. simpl.
  rewrite (list_remove_last h n _ Hmiss (remove_hit_self h n)).
  rewrite delete_insert_id by done. by destruct g.
Qed.

Lemma add_then_remove_witness :
  Graph.__delitem__ scenario.1 (Graph.add scenario.1 (Graph.__init__ "g" None) (RNode 0)) "A"
  = (Graph.__init__ "g" None, None).
Proof.
  apply (add_then_remove scenario.1 (Graph.__init__ "g" None) 0
           (Node.mk "A" [] [("label", VStr "start")])).
  - reflexivity.
  - reflexivity.
  - constructor.
Defined.

(** X4: creating a vertex by [g[key]] and removing the name again gives the
    graph back when every top-level vertex has at least one attribute; the
    created node stays in the store. *)
Theorem lookup_then_remove h g key :
  graph_wf h g →
  Graph._node_map g !! key = None →
  Forall (fun y => ∃ nd, heap_nodes h !! y = Some nd ∧ Node.items nd ≠ []) (Graph.nodes g) →
  Graph.__delitem__ (Graph.__getitem__ h g key).1.1 (Graph.__getitem__ h g key).1.2 key
  = (g, None).
Proof.
  intros [Hlive _] Hfree Hattrs. rewrite (getitem_unregistered h g key Hfree). simpl.
  unfold Graph.__delitem__. simpl. rewrite lookup_insert_eq. simpl.
  rewrite list_remove_last.
  - rewrite delete_insert_id by done. by destruct g.
  - rewrite Forall_forall in Hlive, Hattrs. apply Forall_forall. intros y Hy.
    destruct (Hattrs y Hy) as (nd & End & Hne). specialize (Hlive y Hy).
    unfold remove_hit, Node__eq__. simpl.
    rewrite (proj2 (Nat.eqb_neq _ _)) by lia. simpl.
    rewrite lookup_app_l by done. rewrite End.
    rewrite lookup_app_r by done. rewrite Nat.sub_diag. simpl.
    unfold dict_eq. destruct (Node.items nd); [done|]. done.
  - apply remove_hit_self.
Qed.

Lemma lookup_then_remove_witness :
  Graph.__delitem__ (Graph.__getitem__ scenario.1 scenario.2 "C").1.1
                    (Graph.__getitem__ scenario.1 scenario.2 "C").1.2 "C"
  = (scenario.2, None).
Proof.
  apply (lookup_then_remove scenario.1 scenario.2 "C").
  - unfold graph_wf; split; wf_by_cases.
  - reflexivity.
  - repeat constructor; eexists; (split; [reflexivity|discriminate]).
Defined.

(** X5: when no entry of the top-level list is the registered node or
    compares equal to it, [del g[key]] raises [ValueError] after the name
    has left the registry: the list and everything else are as before, the
    registration is lost. *)
Theorem remove_without_entry h g key n :
  Graph._node_map g !! key = Some n →
  Forall (fun y => remove_hit h n y = false) (Graph.nodes g) →
  Graph.__delitem__ h g key
  = (Graph.mk (Graph.name g) (Graph.log g) (Graph.nodes g) (delete key (Graph._node_map g))
              (Graph.attributes g) (Graph.edges g),
     Some ValueError).
Proof.
  intros Hkey Hmiss. unfold Graph.__delitem__. rewrite Hkey. simpl.
  by rewrite (list_remove_none h n _ Hmiss).
Qed.

Lemma remove_without_entry_witness :
  Graph.__delitem__ stale_registry.1 stale_registry.2 "A"
  = (Graph.mk (Graph.name stale_registry.2) (Graph.log stale_registry.2)
              (Graph.nodes stale_registry.2) (delete "A" (Graph._node_map stale_registry.2))
              (Graph.attributes stale_registry.2) (Graph.edges stale_registry.2),
     Some ValueError).
Proof.
  apply (remove_without_entry stale_registry.1 stale_registry.2 "A" 0).
  - vm_compute. reflexivity.
  - repeat constructor.
Defined.

Lemma list_remove_first h x l :
  List.find (remove_hit h x) l = Some x →
  ∃ l1 l2, l = l1 ++ x :: l2 ∧ (x ∉ l1) ∧ list_remove h x l = Some (l1 ++ l2).
Proof.
  induction l as [|y l IH]; simpl; [done|].
  destruct (remove_hit h x y) eqn:Hy.
  - intros [= ->]. exists [], l. split_and!; [done|apply not_elem_of_nil|done].
  - intros Hf. destruct (IH Hf) as (l1 & l2 & -> & Hout & ->).
    exists (y :: l1), l2. split_and!; [done| |done].
    intros [->|Hin]%elem_of_cons; [|done]. by rewrite remove_hit_self in Hy.
Qed.

(** X6: when the first top-level entry that [list.remove] takes for the
    registered node is the node itself, [del g[key]] raises nothing, drops
    the name from the registry and the first occurrence of the node from
    the top-level list, and keeps the other names, the other entries in
    their order, and the arcs. *)
Theorem remove_drops_registered_vertex h g key n :
  Graph._node_map g !! key = Some n →
  List.find (remove_hit h n) (Graph.nodes g) = Some n →
  ∃ l1 l2,
    Graph.nodes g = l1 ++ n :: l2 ∧ (n ∉ l1)
    ∧ Graph.__delitem__ h g key
      = (Graph.mk (Graph.name g) (Graph.log g) (l1 ++ l2) (delete key (Graph._node_map g))
                  (Graph.attributes g) (Graph.edges g), None)
    ∧ Graph._node_map (Graph.__delitem__ h g key).1 !! key = None
    ∧ ∀ key', key' ≠ key →
        Graph._node_map (Graph.__delitem__ h g key).1 !! key' = Graph._node_map g !! key'.
Proof.
  intros Hkey Hfind. destruct (list_remove_first h n _ Hfind) as (l1 & l2 & Hl & Hout & Hr).
  exists l1, l2.
  assert (Hdel : Graph.__delitem__ h g key
                 = (Graph.mk (Graph.name g) (Graph.log g) (l1 ++ l2)
                             (delete key (Graph._node_map g))
                             (Graph.attributes g) (Graph.edges g), None)).
  { unfold Graph.__delitem__. rewrite Hkey. simpl. by rewrite Hr. }
  rewrite Hdel. simpl. split_and!; try done.
  - apply lookup_delete_eq.
  - intros key' Hne. by apply lookup_delete_ne.
Qed.

Lemma remove_drops_registered_vertex_witness :
  ∃ l1 l2,
    Graph.nodes scenario.2 = l1 ++ 1 :: l2 ∧ (1 ∉ l1)
    ∧ Graph.__delitem__ scenario.1 scenario.2 "B"
      = (Graph.mk (Graph.name scenario.2) (Graph.log scenario.2) (l1 ++ l2)
                  (delete "B" (Graph._node_map scenario.2))
                  (Graph.attributes scenario.2) (Graph.edges scenario.2), None)
    ∧ Graph._node_map (Graph.__delitem__ scenario.1 scenario.2 "B").1 !! "B" = None
    ∧ ∀ key', key' ≠ "B" →
        Graph._node_map (Graph.__delitem__ scenario.1 scenario.2 "B").1 !! key'
        = Graph._node_map scenario.2 !! key'.
Proof.
  apply (remove_drops_registered_vertex scenario.1 scenario.2 "B" 1).
  - vm_compute. reflexivity.
  - vm_compute. reflexivity.
Defined.

(** ** What the traversal reads *)

Lemma for_each_ext {A S : Type} (f f' : A → S → option S) lst s :
  (∀ x t, f x t = f' x t) → for_each f lst s = for_each f' lst s.
Proof.
  intros Hext. revert s. induction lst as [|x lst IH]; intros s; simpl; [done|].
  rewrite Hext. destruct (f' x s); simpl; [apply IH|done].
Qed.

Lemma shape_lookup_node h h' n :
  shape h = shape h' →
  Node.edges <$> (heap_nodes h !! n) = Node.edges <$> (heap_nodes h' !! n).
Proof. intros [= Hn _]. by rewrite <- !list_lookup_fmap, Hn. Qed.

Lemma shape_lookup_edge h h' e :
  shape h = shape h' →
  (fun ed => (Edge.source ed, Edge.dest ed)) <$> (heap_edges h !! e)
  = (fun ed => (Edge.source ed, Edge.dest ed)) <$> (heap_edges h' !! e).
Proof. intros [= _ He]. by rewrite <- !list_lookup_fmap, He. Qed.

Lemma visit_shape h h' rec rec' item s :
  shape h = shape h' → (∀ lst t, rec lst t = rec' lst t) →
  Graph.visit h rec item s = Graph.visit h' rec' item s.
Proof.
  intros Hshape Hrec. unfold Graph.visit.
  destruct (decide (item ∈ memo s)) as [Hin|Hout]; [done|].
  destruct item as [n|e|i]; [| |done].
  - pose proof (shape_lookup_node h h' n Hshape) as Hn.
    destruct (heap_nodes h !! n) as [nd|], (heap_nodes h' !! n) as [nd'|]; simpl in *;
      try done.
    injection Hn as ->. apply Hrec.
  - pose proof (shape_lookup_edge h h' e Hshape) as He.
    destruct (heap_edges h !! e) as [ed|], (heap_edges h' !! e) as [ed'|]; simpl in *;
      try done.
    injection He as -> ->. rewrite Hrec. destruct (rec' _ _); simpl; [apply Hrec|done].
Qed.

Lemma process_shape h h' fuel lst s :
  shape h = shape h' → Graph.process h fuel lst s = Graph.process h' fuel lst s.
Proof.
  intros Hshape. revert lst s. induction fuel as [|fuel IH]; intros lst s; simpl; [done|].
  apply for_each_ext. intros x t. by apply visit_shape.
Qed.

Lemma depth_shape h h' : shape h = shape h' → Graph.depth h = Graph.depth h'.
Proof.
  intros [= Hn He]. unfold Graph.depth.
  apply (f_equal length) in Hn. apply (f_equal length) in He.
  rewrite !length_fmap in Hn. rewrite !length_fmap in He. by rewrite Hn, He.
Qed.

Lemma traverse_shape h h' g :
  shape h = shape h' → Graph.traverse h g = Graph.traverse h' g.
Proof.
  intros Hshape. unfold Graph.traverse.
  rewrite (depth_shape h h' Hshape), (process_shape h h' _ _ _ Hshape).
  destruct (Graph.process h' _ _ _) as [s1|]; [|done].
  exact (process_shape h h' _ _ s1 Hshape).
Qed.

(** X7: the traversal reads nothing of the store but the incident arcs of
    the nodes and the ends of the arcs: names and attributes have no
    influence on which objects are collected, nor on their order. *)
Theorem traverse_reads_only_links h h' g :
  shape h = shape h' → Graph.traverse h g = Graph.traverse h' g.
Proof. apply traverse_shape. Qed.

Lemma traverse_reads_only_links_witness :
  Graph.traverse scenario_gt.1 scenario_gt.2
  = Graph.traverse (Node__setitem__ scenario_gt.1 0 "label" (VStr "begin")) scenario_gt.2.
Proof.
  apply (traverse_reads_only_links scenario_gt.1
           (Node__setitem__ scenario_gt.1 0 "label" (VStr "begin")) scenario_gt.2).
  reflexivity.
Defined.

(** ** Reserved attribute names of an arc *)

Lemma filter_dict_set_reserved key v (d : attrs) :
  reserved key = true →
  List.filter (fun kv => negb (String.eqb kv.1 "source" || String.eqb kv.1 "dest"))
              (dict_set key v d)
  = List.filter (fun kv => negb (String.eqb kv.1 "source" || String.eqb kv.1 "dest")) d.
Proof.
  unfold reserved. intros Hres. induction d as [|[k' v'] d IH]; simpl.
  - by rewrite Hres.
  - destruct (String.eqb key k') eqn:Hk; simpl.
    + apply String.eqb_eq in Hk as <-. by rewrite Hres.
    + by rewrite IH.
Qed.

Lemma edge_line_setitem_reserved h e key v e' :
  reserved key = true →
  Graph.edge_line (Edge__setitem__ h e key v) e' = Graph.edge_line h e'.
Proof.
  intros Hres. unfold Graph.edge_line, Edge__setitem__. simpl.
  destruct (decide (e' = e)) as [->|Hne].
  - rewrite list_lookup_alter_eq. destruct (heap_edges h !! e) as [ed|]; simpl; [|done].
    by rewrite filter_dict_set_reserved.
  - by rewrite list_lookup_alter_ne.
Qed.

Lemma setitem_edge_shape h e key v : shape (Edge__setitem__ h e key v) = shape h.
Proof.
  unfold shape, Edge__setitem__. simpl. f_equal.
  apply list_eq. intros i. rewrite !list_lookup_fmap.
  destruct (decide (i = e)) as [->|Hne].
  - rewrite list_lookup_alter_eq. by destruct (heap_edges h !! e).
  - by rewrite list_lookup_alter_ne.
Qed.

(** X8: an attribute of an arc named [source] or [dest] never shows in the
    serialized text: setting one, on any arc and to any value, leaves the
    text of every graph as it was. *)
Theorem reserved_arc_attributes_hidden h g e v :
  Graph.__str__ (Edge__setitem__ h e "source" v) g = Graph.__str__ h g
  ∧ Graph.__str__ (Edge__setitem__ h e "dest" v) g = Graph.__str__ h g.
Proof.
  assert (Hgen : ∀ key, reserved key = true →
                        Graph.__str__ (Edge__setitem__ h e key v) g = Graph.__str__ h g).
  { intros key Hres. unfold Graph.__str__, Graph.lines.
    rewrite (traverse_shape _ h g (setitem_edge_shape h e key v)).
    destruct (Graph.traverse h g) as [s|]; simpl; [|done].
    rewrite (mapM_ext (Graph.edge_line (Edge__setitem__ h e key v)) (Graph.edge_line h))
      by (intros e'; by apply edge_line_setitem_reserved).
    done. }
  split; by apply Hgen.
Qed.

Example reserved_arc_attribute_example :
  Graph.__str__ (Edge__setitem__ scenario.1 0 "source" (VStr "elsewhere")) scenario.2
  = Some scenario_text
  ∧ Graph.__str__ (Edge__setitem__ scenario.1 0 "color" (VStr "red")) scenario.2
    ≠ Some scenario_text.
Proof. split; vm_compute; [reflexivity|discriminate]. Qed.

(** ** Vertices without arcs *)

Lemma process_nil h fuel s : Graph.process h (S fuel) [] s = Some s.
Proof. reflexivity. Qed.

Lemma for_each_cons_Some {A S : Type} (f : A → S → option S) x lst s s1 :
  f x s = Some s1 → for_each f (x :: lst) s = for_each f lst s1.
Proof. intros Hx. simpl. by rewrite Hx. Qed.

Lemma visit_isolated h n nd s :
  heap_nodes h !! n = Some nd → Node.edges nd = [] →
  Graph.visit h (Graph.process h (length (heap_nodes h) + length (heap_edges h))) (RNode n) s
  = Some (if decide (RNode n ∈ memo s) then s
          else PState ({[RNode n]} ∪ memo s) (p_nodes s ++ [n]) (p_edges s)).
Proof.
  intros End Hedges. unfold Graph.visit.
  destruct (decide (RNode n ∈ memo s)) as [Hin|Hout]; [done|].
  rewrite End. simpl. rewrite Hedges.
  assert (Hfuel : ∃ k, length (heap_nodes h) + length (heap_edges h) = S k).
  { apply lookup_lt_Some in End. exists (length (heap_nodes h) + length (heap_edges h) - 1).
    lia. }
  destruct Hfuel as [k ->]. apply process_nil.
Qed.

Lemma for_each_isolated h lst s :
  Forall (fun n => ∃ nd, heap_nodes h !! n = Some nd ∧ Node.edges nd = []) lst →
  (∀ n, RNode n ∈ memo s ↔ n ∈ p_nodes s) →
  ∃ s',
    for_each (Graph.visit h (Graph.process h (length (heap_nodes h) + length (heap_edges h))))
             (RNode <$> lst) s = Some s'
    ∧ p_nodes s' = foldl (fun acc x => if decide (x ∈ acc) then acc else acc ++ [x])
                         (p_nodes s) lst
    ∧ p_edges s' = p_edges s
    ∧ (∀ n, RNode n ∈ memo s' ↔ n ∈ p_nodes s').
Proof.
  intros Hiso. revert s. induction Hiso as [|n lst (nd & End & Hedges) _ IH]; intros s Hmemo.
  - by exists s.
  - rewrite fmap_cons.
    rewrite (for_each_cons_Some _ _ _ _ _ (visit_isolated h n nd s End Hedges)).
    cbn [foldl].
    destruct (decide (RNode n ∈ memo s)) as [Hin|Hout].
    + rewrite decide_True by (by apply Hmemo). by apply IH.
    + rewrite decide_False by (by rewrite <- Hmemo).
      destruct (IH (PState ({[RNode n]} ∪ memo s) (p_nodes s ++ [n]) (p_edges s)))
        as (s' & Hs' & Hn' & He' & Hm').
      { intros m. simpl. rewrite elem_of_union, elem_of_singleton, elem_of_app,
          list_elem_of_singleton, Hmemo. naive_solver. }
      by exists s'.
Qed.

Lemma elem_of_first_occurrences_aux (l acc : list nat) x :
  x ∈ foldl (fun acc x => if decide (x ∈ acc) then acc else acc ++ [x]) acc l →
  x ∈ acc ∨ x ∈ l.
Proof.
  revert acc. induction l as [|y l IH]; intros acc; simpl; [by left|].
  intros [Hx|Hx]%IH; [|right; by right].
  destruct (decide (y ∈ acc)); [by left|].
  apply elem_of_app in Hx as [Hx|Hx]; [by left|].
  apply list_elem_of_singleton in Hx as ->. right. by left.
Qed.

(** X9: in a graph without top-level arcs whose top-level vertices have no
    incident arcs, the serialized text has no arc line, and one line for
    each top-level vertex, in the order in which the vertices were first
    registered. *)
Theorem isolated_vertices_in_registration_order h g :
  Forall (fun n => ∃ nd, heap_nodes h !! n = Some nd ∧ Node.edges nd = []) (Graph.nodes g) →
  Graph.edges g = [] →
  ∃ node_lines,
    Forall2 (fun n l => Graph.node_line h n = Some l)
            (first_occurrences (Graph.nodes g)) node_lines
    ∧ Graph.lines h g
      = Some ([Graph.header g] ++ map Graph.attr_line (Graph.attributes g)
              ++ node_lines ++ ["}"]).
Proof.
  intros Hiso Hedges.
  destruct (for_each_isolated h (Graph.nodes g) (PState ∅ [] []) Hiso)
    as (s & Hs & Hn & He & _).
  { intros n. simpl. split; [set_solver|]. by intros ?%elem_of_nil. }
  assert (Htrav : Graph.traverse h g = Some s).
  { unfold Graph.traverse, Graph.depth. simpl. rewrite Hs. simpl. by rewrite Hedges. }
  destruct (mapM_is_Some_2 (Graph.node_line h) (p_nodes s)) as [node_lines Hnl].
  { apply Forall_forall. intros n Hin. rewrite Hn in Hin. simpl in Hin.
    apply elem_of_first_occurrences_aux in Hin as [Hin|Hin]; [by apply elem_of_nil in Hin|].
    rewrite Forall_forall in Hiso. destruct (Hiso n Hin) as (nd & End & _).
    apply (node_line_live h n). simpl. by eapply lookup_lt_Some. }
  exists node_lines. split.
  - unfold first_occurrences. simpl in Hn. rewrite <- Hn. by apply mapM_Some_1.
  - unfold Graph.lines. rewrite Htrav. simpl. rewrite Hnl. simpl.
    simpl in He. by rewrite He.
Qed.

Lemma isolated_vertices_in_registration_order_witness :
  ∃ node_lines,
    Forall2 (fun n l => Graph.node_line added_twice.1 n = Some l)
            (first_occurrences (Graph.nodes added_twice.2)) node_lines
    ∧ Graph.lines added_twice.1 added_twice.2
      = Some ([Graph.header added_twice.2] ++ map Graph.attr_line (Graph.attributes added_twice.2)
              ++ node_lines ++ ["}"]).
Proof.
  apply (isolated_vertices_in_registration_order added_twice.1 added_twice.2).
  - repeat constructor; eexists; (split; reflexivity).
  - reflexivity.
Defined.

Example two_unconnected_vertices :
  Graph.nodes two_lookups.2 = [0; 1]
  ∧ Graph.lines two_lookups.1 two_lookups.2
    = Some [ "digraph " +:+ dq +:+ "g" +:+ dq +:+ " {";
             tab +:+ dq +:+ "A" +:+ dq +:+ " [];";
             tab +:+ dq +:+ "B" +:+ dq +:+ " [];";
             "}" ].
Proof. split; vm_compute; reflexivity. Qed.

(** ** Declaring an arc and serializing *)

Lemma gt_store h a b :
  heap_edges (Node__gt__ h a b).1 = heap_edges h ++ [Edge.mk a b []]
  ∧ heap_nodes (Node__gt__ h a b).1
    = imap (fun n nd =>
              Node.mk (Node.name nd)
                      (Node.edges nd
                       ++ (if decide (n = a) then [length (heap_edges h)] else [])
                       ++ (if decide (n = b) then [length (heap_edges h)] else []))
                      (Node.items nd))
           (heap_nodes h).
Proof.
  rewrite Node__gt__unfold. cbn [fst]. split; [done|].
  rewrite edges_append_nodes, edges_append_nodes. cbn [heap_nodes].
  apply list_eq. intros i. rewrite !list_lookup_imap.
  destruct (heap_nodes h !! i) as [nd|]; simpl; [|done]. by rewrite <- app_assoc.
Qed.

(** The store stays well-formed under [a > b] for live [a] and [b]. *)
Lemma gt_heap_wf h a b :
  heap_wf h → a < length (heap_nodes h) → b < length (heap_nodes h) →
  heap_wf (Node__gt__ h a b).1.
Proof.
  intros [Hn He] Ha Hb. destruct (gt_store h a b) as [Hedges Hnodes].
  unfold heap_wf. rewrite Hedges, Hnodes, length_app, length_imap. simpl. split.
  - apply Forall_lookup. intros i nd'. rewrite list_lookup_imap.
    destruct (heap_nodes h !! i) as [nd|] eqn:End; simpl; [|done]. intros [= <-]. simpl.
    rewrite Forall_lookup in Hn. specialize (Hn i nd End).
    rewrite !Forall_app. split_and!.
    + eapply Forall_impl; [exact Hn|]. simpl. intros; lia.
    + destruct (decide (i = a)); repeat constructor; lia.
    + destruct (decide (i = b)); repeat constructor; lia.
  - apply Forall_app. split; [done|]. by repeat constructor.
Qed.

Lemma gt_links h a b x y :
  y ∈ links h x → y ∈ links (Node__gt__ h a b).1 x.
Proof.
  destruct (gt_store h a b) as [Hedges Hnodes].
  destruct x as [n|e|i]; unfold links; [| |done].
  - rewrite Hnodes, list_lookup_imap.
    destruct (heap_nodes h !! n) as [nd|]; simpl; [|by intros ?%elem_of_nil].
    rewrite !fmap_app. set_solver.
  - rewrite Hedges.
    destruct (heap_edges h !! e) as [ed|] eqn:Eed; [|by intros ?%elem_of_nil].
    by rewrite (lookup_app_l_Some _ _ _ _ Eed).
Qed.

Lemma reachable_mono h h' g x :
  (∀ a b, b ∈ links h a → b ∈ links h' a) → reachable h g x → reachable h' g x.
Proof.
  intros Hlinks. induction 1 as [n Hn|e He|r r' _ IH Hl].
  - by apply reach_node.
  - by apply reach_edge.
  - eapply reach_link; [exact IH|]. by apply Hlinks.
Qed.

(** X10: when [a > b] is declared between live vertices of a well-formed
    store and one of the two can be reached from the top-level lists of a
    graph, the serialized text of that graph has the line of the new arc
    and the lines of both vertices, without the arc or the other vertex
    being registered. *)
Theorem gt_shows_in_serialization h g a b :
  heap_wf h → graph_wf h g →
  a < length (heap_nodes h) → b < length (heap_nodes h) →
  reachable h g (RNode a) ∨ reachable h g (RNode b) →
  ∃ lines arc_line a_line b_line,
    Graph.lines (Node__gt__ h a b).1 g = Some lines
    ∧ Graph.edge_line (Node__gt__ h a b).1 (Node__gt__ h a b).2 = Some arc_line
    ∧ Graph.node_line (Node__gt__ h a b).1 a = Some a_line
    ∧ Graph.node_line (Node__gt__ h a b).1 b = Some b_line
    ∧ arc_line ∈ lines ∧ a_line ∈ lines ∧ b_line ∈ lines.
Proof.
  intros Hwf Hg Ha Hb Hreach.
  pose proof (gt_heap_wf h a b Hwf Ha Hb) as Hwf'.
  destruct (gt_store h a b) as [Hedges Hnodes].
  assert (He : (Node__gt__ h a b).2 = length (heap_edges h)) by done.
  assert (Hg' : graph_wf (Node__gt__ h a b).1 g).
  { destruct Hg as [Hgn Hge]. unfold graph_wf. rewrite Hedges, Hnodes, length_app, length_imap.
    split; [done|]. eapply Forall_impl; [exact Hge|]. simpl. intros; lia. }
  assert (Hla : REdge (length (heap_edges h)) ∈ links (Node__gt__ h a b).1 (RNode a)).
  { unfold links. rewrite Hnodes, list_lookup_imap.
    destruct (lookup_lt_is_Some_2 _ _ Ha) as [nd ->]. simpl.
    rewrite decide_True by done. rewrite !fmap_app. set_solver. }
  assert (Hlb : REdge (length (heap_edges h)) ∈ links (Node__gt__ h a b).1 (RNode b)).
  { unfold links. rewrite Hnodes, list_lookup_imap.
    destruct (lookup_lt_is_Some_2 _ _ Hb) as [nd ->]. simpl.
    rewrite (decide_True (P:=b = b)) by done. rewrite !fmap_app. set_solver. }
  assert (Hle : links (Node__gt__ h a b).1 (REdge (length (heap_edges h))) = [RNode a; RNode b]).
  { unfold links. rewrite Hedges, lookup_app_r by done. by rewrite Nat.sub_diag. }
  assert (Hre : reachable (Node__gt__ h a b).1 g (REdge (length (heap_edges h)))).
  { destruct Hreach as [Hr|Hr];
      (eapply reach_link; [eapply reachable_mono; [apply gt_links|exact Hr]|done]). }
  assert (Hra : reachable (Node__gt__ h a b).1 g (RNode a)).
  { eapply reach_link; [exact Hre|]. rewrite Hle. set_solver. }
  assert (Hrb : reachable (Node__gt__ h a b).1 g (RNode b)).
  { eapply reach_link; [exact Hre|]. rewrite Hle. set_solver. }
  destruct (reachable_emitted _ g Hwf' Hg') as (lines & Hl & Hnl & Hel).
  destruct (edge_line_live _ Hwf' (length (heap_edges h))) as [arc_line Harc].
  { unfold live. rewrite Hedges, length_app. simpl. lia. }
  destruct (node_line_live (Node__gt__ h a b).1 a) as [a_line Haline].
  { unfold live. by rewrite Hnodes, length_imap. }
  destruct (node_line_live (Node__gt__ h a b).1 b) as [b_line Hbline].
  { unfold live. by rewrite Hnodes, length_imap. }
  exists lines, arc_line, a_line, b_line. rewrite He.
  split_and!; try done.
  - by apply (Hel (length (heap_edges h))).
  - by apply (Hnl a).
  - by apply (Hnl b).
Qed.

Lemma gt_shows_in_serialization_witness :
  ∃ lines arc_line a_line b_line,
    Graph.lines (Node__gt__ scenario.1 1 0).1 scenario.2 = Some lines
    ∧ Graph.edge_line (Node__gt__ scenario.1 1 0).1 (Node__gt__ scenario.1 1 0).2
      = Some arc_line
    ∧ Graph.node_line (Node__gt__ scenario.1 1 0).1 1 = Some a_line
    ∧ Graph.node_line (Node__gt__ scenario.1 1 0).1 0 = Some b_line
    ∧ arc_line ∈ lines ∧ a_line ∈ lines ∧ b_line ∈ lines.
Proof.
  apply (gt_shows_in_serialization scenario.1 scenario.2 1 0).
  - unfold heap_wf; split; wf_by_cases.
  - unfold graph_wf; split; wf_by_cases.
  - vm_compute. lia.
  - vm_compute. lia.
  - left. apply reach_node. vm_compute. right. left.
Defined.

(** The graph of the self-test of the module: [root] alone is registered,
    and the two vertices it was related to and both arcs are in the text. *)
Example main_graph_lines :
  Graph.lines main_graph.1 main_graph.2
  = Some [ "digraph " +:+ dq +:+ "graph" +:+ dq +:+ " {";
           tab +:+ dq +:+ "me" +:+ dq +:+ " [];";
           tab +:+ dq +:+ "them" +:+ dq +:+ " [];";
           tab +:+ dq +:+ "us" +:+ dq +:+ " [];";
           tab +:+ dq +:+ "me" +:+ dq +:+ " -> " +:+ dq +:+ "them" +:+ dq +:+ " [];";
           tab +:+ dq +:+ "us" +:+ dq +:+ " -> " +:+ dq +:+ "me" +:+ dq +:+ " [];";
           "}" ].
Proof. vm_compute. reflexivity. Qed.

(** ** Rendering with a logger *)

Lemma render_with_logger_witness :
  Graph.render noisy_tool scenario_logged.1 scenario_logged.2 "dot" "png"
  = Some (Graph.mk (Graph.name scenario_logged.2)
            (Some ([] ++ if negb (String.eqb
                                    (error (noisy_tool ["dot"; "-T" +:+ "png"] scenario_text))
                                    EmptyString)
                            || negb (Z.eqb
                                       (returncode
                                          (noisy_tool ["dot"; "-T" +:+ "png"] scenario_text)) 0)
                         then [Warning (join " " ["dot"; "-T" +:+ "png"])
                                 (returncode (noisy_tool ["dot"; "-T" +:+ "png"] scenario_text))
                                 (error (noisy_tool ["dot"; "-T" +:+ "png"] scenario_text))]
                         else []))
            (Graph.nodes scenario_logged.2) (Graph._node_map scenario_logged.2)
            (Graph.attributes scenario_logged.2) (Graph.edges scenario_logged.2),
          Return (out (noisy_tool ["dot"; "-T" +:+ "png"] scenario_text))).
Proof.
  apply (render_with_logger noisy_tool scenario_logged.1 scenario_logged.2 "dot" "png"
           scenario_text []).
  - vm_compute. reflexivity.
  - reflexivity.
Defined.

Example render_logs_diagnostics :
  Graph.render noisy_tool scenario_logged.1 scenario_logged.2 "dot" "png"
  = Some (Graph.mk "g" (Some [Warning "dot -Tpng" 0 "Warning: no fonts"])
            (Graph.nodes scenario.2) (Graph._node_map scenario.2) [] (Graph.edges scenario.2),
          Return "PNG").
Proof. vm_compute. reflexivity. Qed.

(** ** The empty graph *)

Lemma string_app_nil_r (s : string) : s +:+ EmptyString = s.
Proof.
  induction s as [|c s IH]; [done|].
  change (String c (s +:+ EmptyString) = String c s). by rewrite IH.
Qed.

Lemma string_app_assoc (s t u : string) : (s +:+ t) +:+ u = s +:+ (t +:+ u).
Proof.
  induction s as [|c s IH]; [done|].
  change (String c ((s +:+ t) +:+ u) = String c (s +:+ (t +:+ u))). by rewrite IH.
Qed.

(** X15: a graph on which nothing was registered serializes to the header
    and the closing brace, whatever the store holds. *)
Theorem empty_graph_serializes h name log :
  Graph.__str__ h (Graph.__init__ name log)
  = Some ("digraph " +:+ dq +:+ name +:+ dq +:+ " {" +:+ nl +:+ "}").
Proof.
  unfold Graph.__str__, Graph.lines, Graph.traverse, Graph.depth, Graph.header. simpl.
  by rewrite !string_app_assoc.
Qed.

(** ** Texts of single objects *)

Lemma format_options_quoted base (items : attrs) :
  _format_options base (options_of items)
  = base +:+ " [" +:+ Graph.quoted_attrs items +:+ "]".
Proof.
  unfold _format_options, options_of, Graph.quoted_attrs. by rewrite map_map.
Qed.

(** X13: the text of a node on its own is its bare name when it has no
    attributes, and otherwise the name followed by the bracketed attribute
    list, written as in the line of the graph. *)
Theorem node_str_shape nd :
  Node__str__ nd
  = Node.name nd
    +:+ (if decide (Node.items nd = []) then EmptyString
         else " [" +:+ Graph.quoted_attrs (Node.items nd) +:+ "]").
Proof.
  unfold Node__str__. destruct (Node.items nd) as [|kv items] eqn:E.
  - simpl. by rewrite string_app_nil_r.
  - rewrite decide_False by done. rewrite <- format_options_quoted. done.
Qed.

(** X14: the text of an arc on its own names its two ends without quotes;
    it carries no brackets when the arc has no attributes, and otherwise
    the bracketed list of all attributes, those named [source] and [dest]
    included. *)
Theorem edge_str_shape h ed s d :
  heap_nodes h !! Edge.source ed = Some s →
  heap_nodes h !! Edge.dest ed = Some d →
  Edge__str__ h ed
  = Some (Node.name s +:+ " -> " +:+ Node.name d
          +:+ (if decide (Edge.items ed = []) then EmptyString
               else " [" +:+ Graph.quoted_attrs (Edge.items ed) +:+ "]")).
Proof.
  intros Hs Hd. unfold Edge__str__. rewrite Hs. simpl. rewrite Hd. simpl. f_equal.
  destruct (Edge.items ed) as [|kv items] eqn:E.
  - simpl. by rewrite string_app_nil_r.
  - rewrite decide_False by done.
    change (_format_options (Node.name s +:+ " -> " +:+ Node.name d)
              (options_of (kv :: items))
            = Node.name s +:+ " -> " +:+ Node.name d
              +:+ " [" +:+ Graph.quoted_attrs (kv :: items) +:+ "]").
    rewrite format_options_quoted. by rewrite !string_app_assoc.
Qed.

Lemma edge_str_shape_witness :
  Edge__str__ scenario.1 (Edge.mk 0 1 [("style", VStr "dashed")])
  = Some ("A" +:+ " -> " +:+ "B"
          +:+ (if decide ([("style", VStr "dashed")] = ([] : attrs)) then EmptyString
               else " [" +:+ Graph.quoted_attrs [("style", VStr "dashed")] +:+ "]")).
Proof.
  apply (edge_str_shape scenario.1 (Edge.mk 0 1 [("style", VStr "dashed")])
           (Node.mk "A" [] [("label", VStr "start")]) (Node.mk "B" [] [("label", VStr "end")]));
    reflexivity.
Defined.

(** ** Sequences inside sequences *)

Lemma join_cons sep x (parts : list string) :
  parts ≠ [] → join sep (x :: parts) = x +:+ sep +:+ join sep parts.
Proof. by destruct parts. Qed.

Lemma join_app sep (xs ys : list string) :
  xs ≠ [] → ys ≠ [] → join sep (xs ++ ys) = join sep xs +:+ sep +:+ join sep ys.
Proof.
  intros Hxs Hys. induction xs as [|x xs IH]; [done|].
  destruct xs as [|x' xs].
  - simpl. by destruct ys.
  - rewrite <- app_comm_cons. rewrite join_cons by done. rewrite IH by done.
    rewrite (join_cons sep x (x' :: xs)) by done. by rewrite !string_app_assoc.
Qed.

Lemma join_splice sep (pre xs post : list string) :
  xs ≠ [] → join sep (pre ++ join sep xs :: post) = join sep (pre ++ xs ++ post).
Proof.
  intros Hxs. induction pre as [|p pre IH].
  - rewrite !app_nil_l. destruct post as [|q post].
    + by rewrite app_nil_r.
    + rewrite (join_cons sep (join sep xs) (q :: post)) by done.
      by rewrite (join_app sep xs (q :: post)).
  - rewrite <- !app_comm_cons.
    rewrite (join_cons sep p (pre ++ join sep xs :: post)) by (by destruct pre).
    rewrite (join_cons sep p (pre ++ xs ++ post)) by (destruct pre; [by destruct xs|done]).
    by rewrite IH.
Qed.

(** X12: a non-empty list or tuple that is an element of a list or tuple,
    at any position, is not visible in the formatted text: the elements of
    the inner sequence are written as if they were elements of the outer
    one at that position. *)
Theorem nested_sequence_flattens pre vs rest :
  vs ≠ [] →
  _handle_attribute_value (VList (pre ++ VList vs :: rest))
    = _handle_attribute_value (VList (pre ++ vs ++ rest))
  ∧ _handle_attribute_value (VList (pre ++ VTuple vs :: rest))
    = _handle_attribute_value (VList (pre ++ vs ++ rest))
  ∧ _handle_attribute_value (VTuple (pre ++ VList vs :: rest))
    = _handle_attribute_value (VTuple (pre ++ vs ++ rest))
  ∧ _handle_attribute_value (VTuple (pre ++ VTuple vs :: rest))
    = _handle_attribute_value (VTuple (pre ++ vs ++ rest)).
Proof.
  intros Hvs.
  assert (Hgen : join ", " (map _handle_attribute_value pre
                            ++ join ", " (map _handle_attribute_value vs)
                            :: map _handle_attribute_value rest)
                 = join ", " (map _handle_attribute_value (pre ++ vs ++ rest))).
  { rewrite !map_app. apply join_splice. by destruct vs. }
  assert (Hl : ∀ inner, _handle_attribute_value inner
                        = join ", " (map _handle_attribute_value vs) →
                 join ", " (map _handle_attribute_value (pre ++ inner :: rest))
                 = join ", " (map _handle_attribute_value (pre ++ vs ++ rest))).
  { intros inner Hinner. rewrite map_app. simpl. by rewrite Hinner. }
  split_and!; by apply Hl.
Qed.

Lemma nested_sequence_flattens_witness :
  _handle_attribute_value (VList ([VStr "z"] ++ VList [VStr "a"; VInt 2] :: [VStr "c"]))
    = _handle_attribute_value (VList ([VStr "z"] ++ [VStr "a"; VInt 2] ++ [VStr "c"]))
  ∧ _handle_attribute_value (VList ([VStr "z"] ++ VTuple [VStr "a"; VInt 2] :: [VStr "c"]))
    = _handle_attribute_value (VList ([VStr "z"] ++ [VStr "a"; VInt 2] ++ [VStr "c"]))
  ∧ _handle_attribute_value (VTuple ([VStr "z"] ++ VList [VStr "a"; VInt 2] :: [VStr "c"]))
    = _handle_attribute_value (VTuple ([VStr "z"] ++ [VStr "a"; VInt 2] ++ [VStr "c"]))
  ∧ _handle_attribute_value (VTuple ([VStr "z"] ++ VTuple [VStr "a"; VInt 2] :: [VStr "c"]))
    = _handle_attribute_value (VTuple ([VStr "z"] ++ [VStr "a"; VInt 2] ++ [VStr "c"])).
Proof.
  apply (nested_sequence_flattens [VStr "z"] [VStr "a"; VInt 2] [VStr "c"]). discriminate.
Defined.

Example nested_sequence_at_the_end :
  _handle_attribute_value (VList [VStr "a"; VTuple [VStr "b"; VList [VStr "c"; VStr "d"]]])
  = "a, b, c, d".
Proof. reflexivity. Qed.

Example nested_empty_sequence_leaves_a_gap :
  _handle_attribute_value (VList [VList []; VStr "c"]) = ", c".
Proof. reflexivity. Qed.
